(** * MathH: a dense matrix container and its product

    A shallow embedding of [include/MathH/MathH.h]: the class template
    [MathH::Matrix<T>] (two constructors, the two [operator()] overloads,
    [rows()] and [cols()]) and [MathH::MathHClass<T>::multiply].

    Conventions of the embedding.
    - [size_t] is 64 bits wide; a value of that type is an [N], and the
      two places where the source computes with it without a guard
      ([rows * cols] and [r * cols_ + c]) wrap modulo [2^64].
    - [double] is IEEE binary64, the kernel's [float].
    - A call either returns, throws [std::runtime_error], or has undefined
      behaviour (an access outside a [std::vector]'s buffer, a dereference
      of [begin()] of an empty [initializer_list]).
    - [double] operations round to binary64 one by one: no extended
      precision, no fused multiply-add.
    - Exhaustion of memory ([std::bad_alloc], [std::length_error]) is not
      modelled. *)

From Stdlib Require Import PrimFloat.
From stdpp Require Import gmap list strings.

Local Open Scope N_scope.

(** ** [size_t] *)

Definition SIZE_BITS : N := 64.
Definition SIZE_MODULUS : N := 2 ^ SIZE_BITS.

(** Unsigned multiplication and addition of two [size_t] values. *)
Definition size_mul (a b : N) : N := (a * b) mod SIZE_MODULUS.
Definition size_add (a b : N) : N := (a + b) mod SIZE_MODULUS.

(** [valid_dims rows cols]: the element count [rows * cols] is itself a
    [size_t], so that a buffer with one slot per index pair exists. *)
Definition valid_dims (rows cols : N) : Prop := rows * cols < SIZE_MODULUS.

(** ** Outcomes of a call *)

Inductive exn : Type :=
| runtime_error (what : string).

Inductive outcome (E X : Type) : Type :=
| Ok (x : X)
| Throw (e : E)
| Undefined.
Arguments Ok {E X} x.
Arguments Throw {E X} e.
Arguments Undefined {E X}.

(** What [std::vector<T>(n, x)] throws when it cannot obtain its buffer. *)
Inductive alloc_failure : Type :=
| length_error
| bad_alloc.

Definition obind {E X Y} (o : outcome E X) (k : X → outcome E Y) : outcome E Y :=
  match o with
  | Ok x => k x
  | Throw e => Throw e
  | Undefined => Undefined
  end.

(** The messages of the two [throw] statements of the header, and the names
    the specification gives to these failures. *)
Definition InconsistentShape : exn :=
  runtime_error "Inconsistent row length".
Definition DimensionMismatch : exn :=
  runtime_error "Matrix dimensions are not compatible for multiplication".

(** ** The element type [T] *)

(** What the templates ask of [T]: a conversion from [double] (the [0.0] of
    the sized constructor, and [C(i, j) = sum]), value-initialisation [T()]
    (what [vector::resize] appends), the product [a * b], and the conversion
    of that product to [double] in [sum += a * b].  The fields are total:
    they describe an arithmetic [T] no wider than [double] on values where
    the conversions are defined. *)
Class Numeric (T : Type) : Type := {
  of_double : float → T;
  value_init : T;
  mul : T → T → T;
  to_double : T → float;
}.

#[export] Instance Numeric_double : Numeric float := {|
  of_double x := x;
  value_init := 0%float;
  mul := PrimFloat.mul;
  to_double x := x;
|}.

(** ** [Matrix<T>] *)

Record Matrix (T : Type) : Type := mkMatrix {
  rows_ : N;
  cols_ : N;
  data_ : list T;
}.
Arguments mkMatrix {T} rows_ cols_ data_.
Arguments rows_ {T} m.
Arguments cols_ {T} m.
Arguments data_ {T} m.

Section Matrix.
Context {T : Type} `{Numeric T}.

(** [Matrix(rows, cols) : rows_(rows), cols_(cols), data_(rows * cols, 0.0)] *)
Definition Matrix_ctor (rows cols : N) : Matrix T :=
  {| rows_ := rows;
     cols_ := cols;
     data_ := replicate (N.to_nat (size_mul rows cols)) (of_double 0%float) |}.

(** The inner loop of the list constructor, [data_[i++] = val] for each
    [val] of [row]: a write at or past [data_.size()] is undefined. *)
Fixpoint fill_row (row : list T) (data : list T) (i : N)
  : outcome exn (list T * N) :=
  match row with
  | [] => Ok (data, i)
  | val :: row' =>
      if decide (N.to_nat i < length data)%nat
      then fill_row row' (<[N.to_nat i := val]> data) (N.succ i)
      else Undefined
  end.

(** The outer loop, [for (auto &row : values)]. *)
Fixpoint fill_rows (values : list (list T)) (cols : N) (data : list T) (i : N)
  : outcome exn (list T) :=
  match values with
  | [] => Ok data
  | row :: values' =>
      if decide (N.of_nat (length row) ≠ cols)
      then Throw InconsistentShape
      else obind (fill_row row data i)
                 (λ '(data', i'), fill_rows values' cols data' i')
  end.

(** [Matrix(std::initializer_list<std::initializer_list<T>> values)].
    [values.begin()->size()] dereferences [begin()], which is undefined
    for an empty list. *)
Definition Matrix_ctor_list (values : list (list T)) : outcome exn (Matrix T) :=
  match values with
  | [] => Undefined
  | first :: _ =>
      let rows := N.of_nat (length values) in
      let cols := N.of_nat (length first) in
      let data := replicate (N.to_nat (size_mul rows cols)) value_init in
      obind (fill_rows values cols data 0)
            (λ data', Ok {| rows_ := rows; cols_ := cols; data_ := data' |})
  end.

(** The linear offset [r * cols_ + c] both [operator()] overloads index
    [data_] with. *)
Definition offset (m : Matrix T) (r c : N) : N :=
  size_add (size_mul r (cols_ m)) c.

(** [T operator()(size_t r, size_t c) const]: [return data_[r * cols_ + c]].
    [vector::operator[]] does not check its argument. *)
Definition op_call_const (m : Matrix T) (r c : N) : outcome exn T :=
  match data_ m !! N.to_nat (offset m r c) with
  | Some x => Ok x
  | None => Undefined
  end.

(** [T &operator()(size_t r, size_t c)]: [return data_[r * cols_ + c]].
    The reference returned is the slot of [data_] it designates. *)
Definition op_call (m : Matrix T) (r c : N) : outcome exn nat :=
  let idx := N.to_nat (offset m r c) in
  if decide (idx < length (data_ m))%nat then Ok idx else Undefined.

(** Reading and writing through such a reference. *)
Definition load (m : Matrix T) (ref : nat) : outcome exn T :=
  match data_ m !! ref with
  | Some x => Ok x
  | None => Undefined
  end.

Definition store (m : Matrix T) (ref : nat) (v : T) : Matrix T :=
  {| rows_ := rows_ m; cols_ := cols_ m; data_ := <[ref := v]> (data_ m) |}.

(** The element accessors as a caller uses them: [x = m(r, c)] on a
    [const] matrix, and [m(r, c) = v]. *)
Definition get (m : Matrix T) (r c : N) : outcome exn T :=
  op_call_const m r c.

Definition set (m : Matrix T) (r c : N) (v : T) : outcome exn (Matrix T) :=
  obind (op_call m r c) (λ ref, Ok (store m ref v)).

(** [size_t rows() const] and [size_t cols() const]. *)
Definition rows (m : Matrix T) : N := rows_ m.
Definition cols (m : Matrix T) : N := cols_ m.

(** The expression [Matrix<T>(rows, cols)], under the convention that the
    buffer is obtained: the constructor has no [throw] of its own and no
    access that could miss.  [construct_alloc] below is the same
    expression with the allocation taken into account. *)
Definition construct (rows cols : N) : outcome exn (Matrix T) :=
  Ok (Matrix_ctor rows cols).

(** The expression [Matrix<T>(rows, cols)] with the allocation of [data_]
    in it.  [max_size] is [std::vector<T>::max_size()] and [available] the
    number of elements the allocator can still provide:
    [data_(rows * cols, 0.0)] throws [std::length_error] when the count
    exceeds [max_size()], and [std::bad_alloc] when the allocator cannot
    provide that many elements. *)
Definition construct_alloc (max_size available : N) (rows cols : N)
  : outcome alloc_failure (Matrix T) :=
  let n := size_mul rows cols in
  if decide (max_size < n) then Throw length_error
  else if decide (available < n) then Throw bad_alloc
  else Ok (Matrix_ctor rows cols).

(** The representation invariant the member [data_] is documented with,
    "a contiguous vector of size (rows_ * cols_)", as the [size_t]
    expression it is. *)
Definition Inv (m : Matrix T) : Prop :=
  N.of_nat (length (data_ m)) = size_mul (rows_ m) (cols_ m).

(** A matrix whose buffer has one slot for every index pair: the element
    count is a [size_t] and the buffer has exactly that length. *)
Definition wf (m : Matrix T) : Prop :=
  valid_dims (rows_ m) (cols_ m) ∧
  length (data_ m) = N.to_nat (rows_ m * cols_ m).

(** A pair [(r, c)] is in bounds. *)
Definition in_bounds (m : Matrix T) (r c : N) : Prop :=
  r < rows_ m ∧ c < cols_ m.

End Matrix.

(** ** Matrix objects and references to them

    [multiply] takes its operands by reference and builds its result in a
    local object.  Objects live in a store indexed by address; a
    computation threads the store, and an exception leaves with the store
    as it is at the [throw]. *)

Section MathHClass.
Context {T : Type} `{Numeric T}.

Abbreviation heap := (gmap nat (Matrix T)).

Definition M (X : Type) : Type := heap → outcome (exn * heap) (X * heap).

Definition ret {X} (x : X) : M X := λ h, Ok (x, h).

Definition bind {X Y} (m : M X) (k : X → M Y) : M Y :=
  λ h, match m h with
       | Ok (x, h') => k x h'
       | Throw e => Throw e
       | Undefined => Undefined
       end.

Definition throw {X} (e : exn) : M X := λ h, Throw (e, h).

Definition lift {X} (o : outcome exn X) : M X :=
  λ h, match o with
       | Ok x => Ok (x, h)
       | Throw e => Throw (e, h)
       | Undefined => Undefined
       end.

(** The object a reference designates; a dangling reference is undefined. *)
Definition deref (a : nat) : M (Matrix T) :=
  λ h, match h !! a with
       | Some m => Ok (m, h)
       | None => Undefined
       end.

Definition assign (a : nat) (m : Matrix T) : M unit :=
  λ h, Ok (tt, <[a := m]> h).

(** A new object, at an address no live object has. *)
Definition new (m : Matrix T) : M nat :=
  λ h, let a := fresh (dom h) in Ok (a, <[a := m]> h).

Notation "'let*' x := e 'in' k" := (bind e (λ x, k))
  (at level 10, x pattern, e at level 100, k at level 200, only parsing).

(** [A.rows()] and [A.cols()] for [A] a reference. *)
Definition rows_of (a : nat) : M N := let* m := deref a in ret (rows m).
Definition cols_of (a : nat) : M N := let* m := deref a in ret (cols m).

(** [A(r, c)] read as a value, [A] a non-const reference: the non-const
    overload is the one selected. *)
Definition read (a : nat) (r c : N) : M T :=
  let* m := deref a in
  let* ref := lift (op_call m r c) in
  lift (load m ref).

(** [A(r, c) = v]. *)
Definition write (a : nat) (r c : N) (v : T) : M unit :=
  let* m := deref a in
  let* ref := lift (op_call m r c) in
  assign a (store m ref v).

(** [for (size_t i = 0; i < bound; ++i) body], with the variables the
    body updates passed along as [x].  [rows_] and [cols_] are private
    and no member assigns them, so the bound is read once, on entry;
    [++i] cannot wrap, since [i < bound]. *)
Fixpoint for_range {X} (n : nat) (i : N) (body : N → X → M X) (x : X) : M X :=
  match n with
  | O => ret x
  | S n' => let* x' := body i x in for_range n' (N.succ i) body x'
  end.

Definition for_ {X} (bound : M N) (body : N → X → M X) (x : X) : M X :=
  let* n := bound in for_range (N.to_nat n) 0 body x.

(** [Matrix<T> MathHClass<T>::multiply(Matrix<T> &A, Matrix<T> &B)].
    The result is the local [C], returned by value: the caller receives
    the object at the address returned. *)
Definition multiply (A B : nat) : M nat :=
  let* ca := cols_of A in
  let* rb := rows_of B in
  if decide (ca ≠ rb) then throw DimensionMismatch
  else
    let* ra := rows_of A in
    let* cb := cols_of B in
    let* C := new (Matrix_ctor ra cb) in
    let* _ :=
      for_ (rows_of A) (λ i _,
        for_ (cols_of B) (λ j _,
          let* sum :=
            for_ (cols_of A) (λ k sum,
              let* a := read A i k in
              let* b := read B k j in
              ret (sum + to_double (mul a b))%float) 0%float in
          write C i j (of_double sum)) tt) tt in
    ret C.

End MathHClass.

(** ** The three loops of [multiply], by name

    The bodies that [multiply] nests, as functions of the loop variables
    around them; [multiply_unfold] below says they are the ones it runs. *)

Section Loops.
Context {T : Type} `{Numeric T}.

(** The bodies of the loops over [k], over [j] and over [i]. *)
Definition inner_body (A B : nat) (i j : N) : N → float → M float :=
  λ k sum,
    bind (read A i k) (λ a,
    bind (read B k j) (λ b,
    ret (sum + to_double (mul a b))%float)).

Definition middle_body (A B C : nat) (i : N) : N → unit → M unit :=
  λ j _,
    bind (for_ (cols_of A) (inner_body A B i j) 0%float) (λ sum,
    write C i j (of_double sum)).

Definition outer_body (A B C : nat) : N → unit → M unit :=
  λ i _, for_ (cols_of B) (middle_body A B C i) tt.

End Loops.

(** * Vocabulary of the statements *)

Section Vocabulary.
Context {T : Type} `{Numeric T}.

Abbreviation heap := (gmap nat (Matrix T)).
Abbreviation run X := (outcome (exn * heap) (X * heap)).

(** [returns Q o]: the computation returned, in a state satisfying [Q]. *)
Definition returns {X} (Q : X → heap → Prop) (o : run X) : Prop :=
  ∃ x h', o = Ok (x, h') ∧ Q x h'.

(** [post Q E o]: if the computation returned then [Q] holds, and if it
    threw then [E] holds. *)
Definition post {X} (Q : X → heap → Prop) (E : exn → heap → Prop)
    (o : run X) : Prop :=
  match o with
  | Ok (x, h') => Q x h'
  | Throw (e, h') => E e h'
  | Undefined => True
  end.

(** Element [(r, c)] of a matrix, read off its row-major buffer. *)
Definition elem (m : Matrix T) (r c : N) : T :=
  default value_init (data_ m !! N.to_nat (r * cols_ m + c)).

(** The sum of [term 0], ..., [term (n - 1)], accumulated in [double]
    from [0.0] in increasing order of the index. *)
Fixpoint sum_double (n : nat) (term : N → float) : float :=
  match n with
  | O => 0%float
  | S n' => (sum_double n' term + term (N.of_nat n'))%float
  end.

(** The sum over [k] of [A(i, k) * B(k, j)], each product formed in [T]
    and converted to [double]. *)
Definition dot (mA mB : Matrix T) (i j : N) : float :=
  sum_double (N.to_nat (cols_ mA))
             (λ k, to_double (mul (elem mA i k) (elem mB k j))).

(** What the loops have established on entry to iteration [(i, j)]: the
    cells of the rows before [i], and of row [i] before column [j], hold
    their final value. *)
Definition filled (mA mB mC : Matrix T) (i j : N) : Prop :=
  wf mC ∧ rows_ mC = rows_ mA ∧ cols_ mC = cols_ mB ∧
  ∀ i' j', j' < cols_ mB → i' < i ∨ (i' = i ∧ j' < j) →
    data_ mC !! N.to_nat (i' * cols_ mB + j')
    = Some (of_double (dot mA mB i' j')).

(** A computation that only inspects the store: it cannot throw, and if
    it returns the store is as before. *)
Definition inspects {X} (m : M X) : Prop :=
  ∀ h : heap, post (λ _ h', h' = h) (λ _ _, False) (m h).

(** The store while the loops run: the store on entry, with at [C] a
    matrix of the dimensions [C] was constructed with and a buffer of
    the length it was constructed with. *)
Definition result_at (h : heap) (C : nat) (nrows ncols : N) (h' : heap) : Prop :=
  ∃ mC, h' = <[C := mC]> h ∧ rows_ mC = nrows ∧ cols_ mC = ncols ∧ Inv mC.

(** Every object of the store satisfies the invariant. *)
Definition heap_Inv (h : heap) : Prop :=
  ∀ a m, h !! a = Some m → Inv m.

(** Every object of [h] is still there in [h'], with the dimensions it
    had. *)
Definition dims_kept (h h' : heap) : Prop :=
  ∀ a m, h !! a = Some m →
         ∃ m', h' !! a = Some m' ∧ rows m' = rows m ∧ cols m' = cols m.

End Vocabulary.

Arguments inspects T {X} m.

(** ** Data of the scenarios, on [Matrix<double>] *)

Definition A22 : Matrix float := mkMatrix 2 2 [1; 2; 3; 4]%float.
Definition B22 : Matrix float := mkMatrix 2 2 [5; 6; 7; 8]%float.
Definition AB22 : Matrix float := mkMatrix 2 2 [19; 22; 43; 50]%float.
Definition A23 : Matrix float := mkMatrix 2 3 [1; 2; 3; 4; 5; 6]%float.

(** A store holding the operands at addresses [0] and [1]. *)
Definition store_22_22 : gmap nat (Matrix float) :=
  <[1%nat := B22]> (<[0%nat := A22]> ∅).
Definition store_23_22 : gmap nat (Matrix float) :=
  <[1%nat := B22]> (<[0%nat := A23]> ∅).

(** Two copies of the same matrix, and three operands of a chain. *)
Definition store_22_copy : gmap nat (Matrix float) :=
  <[1%nat := A22]> (<[0%nat := A22]> ∅).
Definition store_chain : gmap nat (Matrix float) :=
  <[2%nat := A23]> (<[1%nat := B22]> (<[0%nat := A22]> ∅)).

(** Operands without elements: 2x0 and 0x3, and 2^32 x 0 and 0 x 2^32. *)
Definition A20 : Matrix float := mkMatrix 2 0 [].
Definition B03 : Matrix float := mkMatrix 0 3 [].
Definition store_20_03 : gmap nat (Matrix float) :=
  <[1%nat := B03]> (<[0%nat := A20]> ∅).
(** What [Matrix<double>(2^63 + 1, 2)] builds: [rows * cols] wraps to 2. *)
Definition M_wrapped : Matrix float :=
  mkMatrix (2 ^ 63 + 1) 2 [0; 0]%float.
Definition A_tall : Matrix float := mkMatrix (2 ^ 32) 0 [].
Definition B_wide : Matrix float := mkMatrix 0 (2 ^ 32) [].
Definition store_tall_wide : gmap nat (Matrix float) :=
  <[1%nat := B_wide]> (<[0%nat := A_tall]> ∅).


(** * Properties *)

(** ** Arithmetic of offsets *)

Lemma size_mul_small a b : valid_dims a b → size_mul a b = a * b.
Proof. intros Hv. unfold size_mul. by apply N.mod_small. Qed.

Lemma size_mul_lt a b : size_mul a b < SIZE_MODULUS.
Proof. unfold size_mul. by apply N.mod_upper_bound. Qed.

Lemma row_major_lt (rows cols r c : N) :
  r < rows → c < cols → r * cols + c < rows * cols.
Proof. nia. Qed.

Lemma row_major_inj (cols r c r' c' : N) :
  c < cols → c' < cols → r * cols + c = r' * cols + c' → r = r' ∧ c = c'.
Proof.
  intros Hc Hc' Heq. apply (N.div_mod_unique cols); [done | done |].
  by rewrite !(N.mul_comm cols).
Qed.

Section MatrixFacts.
Context {T : Type} `{Numeric T}.
Implicit Types m : Matrix T.

Lemma offset_in_bounds m r c :
  valid_dims (rows_ m) (cols_ m) → in_bounds m r c →
  offset m r c = r * cols_ m + c ∧ offset m r c < rows_ m * cols_ m.
Proof.
  unfold valid_dims, in_bounds, offset, size_add, size_mul.
  intros Hv [Hr Hc].
  assert (r * cols_ m + c < rows_ m * cols_ m) by by apply row_major_lt.
  assert (r * cols_ m < SIZE_MODULUS) by lia.
  rewrite (N.mod_small (r * cols_ m)) by done.
  rewrite N.mod_small by lia. done.
Qed.

Lemma wf_Inv m : wf m → Inv m.
Proof.
  intros [Hv Hl]. unfold Inv. rewrite Hl, size_mul_small by done. lia.
Qed.

Lemma Matrix_ctor_wf (rows cols : N) :
  valid_dims rows cols → wf (Matrix_ctor rows cols).
Proof.
  intros Hv. split; [done |]. simpl.
  by rewrite length_replicate, size_mul_small.
Qed.

(** In bounds, on a well-formed matrix, both overloads reach the slot
    [r * cols_ + c] of the buffer, and that slot exists. *)
Lemma slot_in_bounds m r c :
  wf m → in_bounds m r c →
  N.to_nat (offset m r c) = N.to_nat (r * cols_ m + c) ∧
  (N.to_nat (offset m r c) < length (data_ m))%nat.
Proof.
  intros [Hv Hl] Hb. destruct (offset_in_bounds m r c Hv Hb) as [-> Hlt].
  split; [done | lia].
Qed.

Lemma get_in_bounds m r c :
  wf m → in_bounds m r c →
  ∃ x, data_ m !! N.to_nat (r * cols_ m + c) = Some x ∧ get m r c = Ok x.
Proof.
  intros Hwf Hb. destruct (slot_in_bounds m r c Hwf Hb) as [Heq Hlt].
  destruct (lookup_lt_is_Some_2 _ _ Hlt) as [x Hx].
  exists x. unfold get, op_call_const. rewrite Hx. split; [| done].
  by rewrite <- Heq.
Qed.

Lemma op_call_in_bounds m r c :
  wf m → in_bounds m r c →
  op_call m r c = Ok (N.to_nat (r * cols_ m + c)).
Proof.
  intros Hwf Hb. destruct (slot_in_bounds m r c Hwf Hb) as [Heq Hlt].
  unfold op_call. rewrite decide_True by done. by rewrite Heq.
Qed.

(** Reading through the reference the non-const overload returns is the
    read the const overload does. *)
Lemma op_call_load m r c :
  obind (op_call m r c) (load m) = op_call_const m r c.
Proof.
  unfold op_call, op_call_const, load. case_decide as Hlt; simpl.
  - done.
  - by rewrite lookup_ge_None_2 by lia.
Qed.

Lemma get_Matrix_ctor (nrows ncols r c : N) :
  valid_dims nrows ncols → r < nrows → c < ncols →
  get (Matrix_ctor nrows ncols : Matrix T) r c = Ok (of_double 0%float).
Proof.
  intros Hv Hr Hc.
  destruct (get_in_bounds (Matrix_ctor nrows ncols) r c) as (x & Hx & ->);
    [by apply Matrix_ctor_wf | done |].
  simpl in Hx. by apply lookup_replicate in Hx as [-> _].
Qed.

Lemma store_wf m ref v : wf m → wf (store m ref v).
Proof. intros [Hv Hl]. split; [done |]. simpl. by rewrite length_insert. Qed.

End MatrixFacts.

(** ** The sized constructor *)

Section Construct.
Context {T : Type} `{Numeric T}.

(** C7.  For dimensions whose element count [nrows * ncols] is a
    [size_t], [Matrix(nrows, ncols)] reports [rows() = nrows] and
    [cols() = ncols], and every in-bounds read returns [T(0.0)], the zero
    of [T]. *)
Theorem construct_zero (nrows ncols : N) :
  valid_dims nrows ncols →
  ∃ m : Matrix T,
    construct nrows ncols = Ok m ∧
    rows m = nrows ∧ cols m = ncols ∧
    ∀ r c, r < nrows → c < ncols → get m r c = Ok (of_double 0%float).
Proof.
  intros Hv. exists (Matrix_ctor nrows ncols). repeat split.
  intros r c Hr Hc.
  destruct (get_in_bounds (Matrix_ctor nrows ncols) r c) as (x & Hx & ->);
    [by apply Matrix_ctor_wf | done |].
  simpl in Hx. by apply lookup_replicate in Hx as [-> _].
Qed.

(** Where the allocation succeeds, the constructor returns what
    [construct] says. *)
Lemma construct_alloc_returned (max_size available nrows ncols : N)
    (m : Matrix T) :
  construct_alloc max_size available nrows ncols = Ok m →
  construct nrows ncols = Ok m.
Proof.
  unfold construct_alloc, construct. cbn zeta.
  repeat case_decide; [done | done |]. by intros [= <-].
Qed.

Lemma Matrix_ctor_zero_dim (nrows ncols : N) :
  nrows = 0 ∨ ncols = 0 →
  size_mul nrows ncols = 0 ∧
  (Matrix_ctor nrows ncols : Matrix T) = mkMatrix nrows ncols [].
Proof.
  intros Hz.
  assert (Hn : size_mul nrows ncols = 0).
  { unfold size_mul. destruct Hz as [-> | ->].
    - by rewrite N.mul_0_l.
    - by rewrite N.mul_0_r. }
  split; [done |]. unfold Matrix_ctor. by rewrite Hn.
Qed.

(** C4, as the code has it.  The sized constructor has no guard on its
    arguments, and a zero dimension is not an error: with [nrows] or
    [ncols] zero it returns the matrix of the dimensions asked for, with
    an empty buffer, whatever the limits of the allocator (no element is
    requested). *)
Theorem construct_accepts_zero (max_size available nrows ncols : N) :
  nrows = 0 ∨ ncols = 0 →
  construct_alloc max_size available nrows ncols
  = Ok (mkMatrix nrows ncols [] : Matrix T) ∧
  construct nrows ncols = Ok (mkMatrix nrows ncols [] : Matrix T).
Proof.
  intros Hz. destruct (Matrix_ctor_zero_dim nrows ncols Hz) as [Hn Hm].
  unfold construct_alloc, construct. cbn zeta. rewrite Hn, Hm.
  by rewrite !decide_False by lia.
Qed.

End Construct.

(** ** The element accessors *)

Section Accessors.
Context {T : Type} `{Numeric T}.
Implicit Types m : Matrix T.

(** C10, as the code has it.  On a well-formed matrix (its buffer has
    [rows * cols] elements, a [size_t]), after [m(r, c) = v] at an in-bounds
    pair, a read of [(r, c)] returns [v] and a read of any other
    in-bounds pair returns what it returned before. *)
Theorem set_get m r c v :
  wf m → in_bounds m r c →
  ∃ m', set m r c v = Ok m' ∧
        get m' r c = Ok v ∧
        ∀ r' c', in_bounds m r' c' → (r', c') ≠ (r, c) →
                 get m' r' c' = get m r' c'.
Proof.
  intros Hwf Hb.
  destruct (slot_in_bounds m r c Hwf Hb) as [Heq Hlt].
  exists (store m (N.to_nat (r * cols_ m + c)) v).
  assert (Hwf' := store_wf m (N.to_nat (r * cols_ m + c)) v Hwf).
  split; [| split].
  - unfold set. by rewrite op_call_in_bounds.
  - destruct (get_in_bounds _ r c Hwf' Hb) as (x & Hx & ->).
    simpl in Hx. rewrite list_lookup_insert_eq in Hx by lia. congruence.
  - intros r' c' Hb' Hne.
    destruct (get_in_bounds _ r' c' Hwf' Hb') as (x & Hx & ->).
    destruct (get_in_bounds _ r' c' Hwf Hb') as (y & Hy & ->).
    simpl in Hx. rewrite list_lookup_insert_ne in Hx; [congruence |].
    intros Hsame. apply N2Nat.inj in Hsame.
    destruct Hb as [_ Hc], Hb' as [_ Hc'].
    destruct (row_major_inj (cols_ m) r c r' c' Hc Hc' Hsame). congruence.
Qed.

(** Neither accessor has a [throw]. *)
Lemma accessors_no_throw m r c v e :
  get m r c ≠ Throw e ∧ set m r c v ≠ Throw e.
Proof.
  unfold get, op_call_const, set, op_call. split.
  - by destruct (data_ m !! _).
  - by case_decide.
Qed.

(** An offset inside the buffer of a well-formed matrix is the offset of
    one in-bounds pair, whatever pair it was computed from. *)
Lemma offset_lands_in_bounds m r c :
  wf m → (N.to_nat (offset m r c) < length (data_ m))%nat →
  let q := offset m r c / cols_ m in
  let c' := offset m r c mod cols_ m in
  in_bounds m q c' ∧ offset m q c' = offset m r c.
Proof.
  intros [Hv Hl] Hlt q c'. rewrite Hl in Hlt.
  assert (Hoff : offset m r c < rows_ m * cols_ m) by lia.
  assert (Hc : cols_ m ≠ 0) by (intros Hz; rewrite Hz in Hoff; lia).
  assert (Hb : in_bounds m q c').
  { split.
    - apply N.Div0.div_lt_upper_bound. lia.
    - by apply N.mod_upper_bound. }
  split; [done |].
  destruct (offset_in_bounds m q c' Hv Hb) as [-> _].
  unfold q, c'. rewrite (N.mul_comm _ (cols_ m)).
  symmetry. by apply N.div_mod.
Qed.

(** C3, as the code has it.  For a pair [(r, c)] out of bounds the
    accessors check nothing and throw nothing: they go to the slot
    [r * cols_ + c] (in [size_t] arithmetic) of the buffer.  If that slot
    exists, it is the slot of the in-bounds pair
    [(offset / cols, offset mod cols)]: the read returns the element
    stored there, which is what a read of that pair returns; the
    assignment overwrites it, which is what an assignment to that pair
    does, and both pairs read the new value afterwards.  If the slot does
    not exist, the access is outside the buffer. *)
Theorem accessors_unchecked m r c v :
  wf m → rows m ≤ r ∨ cols m ≤ c →
  let off := offset m r c in
  let slot := N.to_nat off in
  (∀ e, get m r c ≠ Throw e ∧ set m r c v ≠ Throw e) ∧
  ((slot < length (data_ m))%nat →
     in_bounds m (off / cols m) (off mod cols m) ∧
     ∃ x, data_ m !! slot = Some x ∧
          get m r c = Ok x ∧
          get m (off / cols m) (off mod cols m) = Ok x ∧
          set m r c v = Ok (store m slot v) ∧
          set m (off / cols m) (off mod cols m) v = Ok (store m slot v) ∧
          data_ (store m slot v) = <[slot := v]> (data_ m) ∧
          get (store m slot v) r c = Ok v ∧
          get (store m slot v) (off / cols m) (off mod cols m) = Ok v) ∧
  ((length (data_ m) ≤ slot)%nat →
     get m r c = Undefined ∧ set m r c v = Undefined).
Proof.
  intros Hwf _ off slot. subst off slot. unfold cols.
  split; [| split].
  - intros e. apply accessors_no_throw.
  - intros Hlt.
    destruct (offset_lands_in_bounds m r c Hwf Hlt) as [Hb Hoff].
    split; [exact Hb |].
    destruct (lookup_lt_is_Some_2 _ _ Hlt) as [x Hx].
    exists x. split; [done |].
    assert (Hread : ∀ r' c', offset m r' c' = offset m r c →
              get m r' c' = Ok x ∧
              set m r' c' v = Ok (store m (N.to_nat (offset m r c)) v) ∧
              get (store m (N.to_nat (offset m r c)) v) r' c' = Ok v).
    { intros r' c' Heq. unfold get, op_call_const, set, op_call.
      assert (Heq' : offset (store m (N.to_nat (offset m r c)) v) r' c'
                     = offset m r c) by exact Heq.
      rewrite Heq', Heq, Hx, decide_True by done. simpl.
      by rewrite list_lookup_insert_eq. }
    destruct (Hread r c eq_refl) as (Hg & Hs & Hg').
    destruct (Hread _ _ Hoff) as (Hgb & Hsb & Hgb').
    done.
  - intros Hge. unfold get, op_call_const, set, op_call.
    rewrite lookup_ge_None_2 by done.
    by rewrite decide_False by lia.
Qed.

End Accessors.

(** ** The constructor from a nested list *)

Section ListConstructor.
Context {T : Type} `{Numeric T}.
Implicit Types (row pre : list T) (values : list (list T)).

(** Writing [row] into a buffer already filled with [pre] and with [k]
    untouched slots after it. *)
Lemma fill_row_app row : ∀ pre (k : nat) (z : T),
  (length row ≤ k)%nat →
  fill_row row (pre ++ replicate k z) (N.of_nat (length pre))
  = Ok (pre ++ row ++ replicate (k - length row) z,
        N.of_nat (length (pre ++ row))).
Proof.
  induction row as [| v row IH]; intros pre k z Hk; simpl in *.
  - by rewrite Nat.sub_0_r, app_nil_r.
  - destruct k as [| k]; [lia |].
    rewrite decide_True by (rewrite Nat2N.id, length_app; simpl; lia).
    rewrite Nat2N.id, insert_app_r_alt, Nat.sub_diag by done. simpl.
    replace (N.succ (N.of_nat (length pre)))
      with (N.of_nat (length (pre ++ [v]))) by (rewrite length_app; simpl; lia).
    rewrite (cons_middle v pre), app_assoc, IH by lia.
    by rewrite <- !app_assoc.
Qed.

(** The whole fill: with room for every row, it either meets a row whose
    length is not [c] and throws, or lays the rows out one after another. *)
Lemma fill_rows_app values (c : nat) (z : T) : ∀ pre (k : nat),
  (length values * c ≤ k)%nat →
  fill_rows values (N.of_nat c) (pre ++ replicate k z) (N.of_nat (length pre))
  = if decide (Forall (λ row, length row = c) values)
    then Ok (pre ++ concat values ++ replicate (k - length values * c) z)
    else Throw InconsistentShape.
Proof.
  induction values as [| row values IH]; intros pre k Hk; simpl in *.
  - by rewrite Nat.sub_0_r.
  - destruct (decide (N.of_nat (length row) ≠ N.of_nat c)) as [Hne | Heq].
    + rewrite decide_False; [done |].
      intros Hall. apply Forall_cons in Hall as [Hrow _]. lia.
    + assert (Hrow : length row = c) by lia.
      rewrite fill_row_app by lia. simpl.
      rewrite app_assoc, IH by lia.
      destruct (decide (Forall _ values)) as [Hall | Hnall].
      * rewrite decide_True by by constructor.
        replace (k - length row - length values * c)%nat
          with (k - (c + length values * c))%nat by lia.
        by rewrite <- !app_assoc.
      * rewrite decide_False; [done |].
        intros Hall. by apply Forall_cons in Hall as [_ Hall].
Qed.

(** Row [r], column [c] of rows of equal length [n], laid out one after
    another, is at position [r * n + c]. *)
Lemma concat_lookup values (n : nat) : ∀ (r c : nat) row,
  Forall (λ row, length row = n) values →
  values !! r = Some row → (c < n)%nat →
  concat values !! (r * n + c)%nat = row !! c.
Proof.
  induction values as [| row0 values IH]; intros r c row Hall Hr Hc;
    [done |].
  apply Forall_cons in Hall as [Hrow0 Hall].
  destruct r as [| r]; simpl in *.
  - injection Hr as ->. by rewrite lookup_app_l by lia.
  - rewrite lookup_app_r by lia.
    replace (n + r * n + c - length row0)%nat with (r * n + c)%nat by lia.
    by apply IH.
Qed.

Lemma concat_length_uniform values (n : nat) :
  Forall (λ row, length row = n) values →
  length (concat values) = (length values * n)%nat.
Proof.
  induction 1 as [| row values Hrow _ IH]; simpl; [done |].
  rewrite length_app. lia.
Qed.

(** C6.  For a non-empty list of rows whose declared shape (number of
    rows times length of the first row) is a [size_t]: if some row's
    length differs from the first row's, the constructor throws and
    returns no matrix; if all rows have the first row's length, it
    returns the matrix with that many rows and columns whose buffer is
    the rows one after another, so that reading [(r, c)] gives element
    [c] of row [r]. *)
Theorem Matrix_ctor_list_spec (first : list T) (rest : list (list T)) :
  let values := first :: rest in
  valid_dims (N.of_nat (length values)) (N.of_nat (length first)) →
  ((∃ row, row ∈ values ∧ length row ≠ length first) →
     Matrix_ctor_list values = Throw InconsistentShape) ∧
  ((∀ row, row ∈ values → length row = length first) →
     ∃ m, Matrix_ctor_list values = Ok m ∧
          rows m = N.of_nat (length values) ∧
          cols m = N.of_nat (length first) ∧
          data_ m = concat values ∧
          ∀ (r c : nat) row x,
            values !! r = Some row → row !! c = Some x →
            get m (N.of_nat r) (N.of_nat c) = Ok x).
Proof.
  intros values Hv.
  assert (Hfill :
    fill_rows values (N.of_nat (length first))
      (replicate (N.to_nat (size_mul (N.of_nat (length values))
                                     (N.of_nat (length first)))) value_init) 0
    = if decide (Forall (λ row, length row = length first) values)
      then Ok (concat values) else Throw InconsistentShape).
  { rewrite size_mul_small by done.
    etrans; [apply (fill_rows_app values (length first) value_init []); lia |].
    case_decide; [| done]. simpl.
    replace (_ - _)%nat with 0%nat by lia. simpl. by rewrite app_nil_r. }
  assert (Hdef :
    Matrix_ctor_list values
    = obind (fill_rows values (N.of_nat (length first))
               (replicate (N.to_nat (size_mul (N.of_nat (length values))
                                              (N.of_nat (length first))))
                          value_init) 0)
            (λ data', Ok (mkMatrix (N.of_nat (length values))
                                   (N.of_nat (length first)) data')))
    by reflexivity.
  rewrite Hdef, Hfill. clear Hdef Hfill.
  split.
  - intros (row & Hin & Hne). rewrite decide_False; [done |].
    intros Hall. rewrite Forall_forall in Hall. by apply Hne, Hall.
  - intros Hall. apply Forall_forall in Hall as Hall'.
    rewrite decide_True by done.
    set (m := mkMatrix (N.of_nat (length values)) (N.of_nat (length first))
                       (concat values)).
    exists m. do 4 (split; [done |]).
    intros r c row x Hr Hc.
    assert (Hwf : wf m).
    { split; [done |]. unfold m. cbn [data_ rows_ cols_].
      rewrite (concat_length_uniform _ _ Hall'). lia. }
    assert (Hrow : length row = length first)
      by (apply Hall; by eapply list_elem_of_lookup_2).
    assert (Hb : in_bounds m (N.of_nat r) (N.of_nat c)).
    { apply lookup_lt_Some in Hr, Hc. split; simpl in *; lia. }
    destruct (get_in_bounds m _ _ Hwf Hb) as (y & Hy & ->).
    unfold m in Hy. cbn [data_ cols_] in Hy.
    replace (N.to_nat _) with (r * length first + c)%nat in Hy by lia.
    rewrite (concat_lookup _ _ r c row Hall' Hr) in Hy; [congruence |].
    apply lookup_lt_Some in Hc. lia.
Qed.

(** What a fill that returned has done: the buffer kept its length, and
    the writes stayed inside it. *)
Lemma fill_row_returned row : ∀ data i data' i',
  fill_row row data i = Ok (data', i') →
  length data' = length data ∧ i' = i + N.of_nat (length row) ∧
  (row ≠ [] → (N.to_nat i' ≤ length data)%nat).
Proof.
  induction row as [| v row IH]; intros data i data' i' Hfill; simpl in Hfill.
  - injection Hfill as <- <-. split; [done |]. split; [simpl; lia | done].
  - case_decide as Hlt; [| done].
    apply IH in Hfill as (Hlen & -> & Hle). rewrite length_insert in Hlen, Hle.
    split; [done |]. split; [simpl; lia |]. intros _.
    destruct row as [| w row]; [simpl; lia | by apply Hle].
Qed.

Lemma fill_rows_returned values (ncols : N) : ∀ data i data',
  fill_rows values ncols data i = Ok data' →
  length data' = length data ∧
  (ncols ≠ 0 → values ≠ [] →
   (N.to_nat (i + N.of_nat (length values) * ncols) ≤ length data)%nat).
Proof.
  induction values as [| row values IH]; intros data i data' Hfill;
    simpl in Hfill.
  - by injection Hfill as <-.
  - case_decide as Hne; [done |].
    assert (Hrow : N.of_nat (length row) = ncols)
      by (destruct (decide (N.of_nat (length row) = ncols)); tauto).
    destruct (fill_row row data i) as [[data1 i1] | |] eqn:Hfr; [| done | done].
    simpl in Hfill.
    apply fill_row_returned in Hfr as (Hlen1 & -> & Hle1).
    apply IH in Hfill as (Hlen & Hle). rewrite Hlen1 in Hlen, Hle.
    split; [done |]. intros Hc _.
    assert (row ≠ []) by (intros ->; simpl in Hrow; lia).
    destruct values as [| row' values].
    + specialize (Hle1 ltac:(done)). simpl. lia.
    + specialize (Hle Hc ltac:(done)). simpl in *. lia.
Qed.

(** A matrix the list constructor returned is well formed, whatever the
    list was. *)
Lemma Matrix_ctor_list_wf values (m : Matrix T) :
  Matrix_ctor_list values = Ok m → wf m.
Proof.
  destruct values as [| first rest]; [done |].
  unfold Matrix_ctor_list.
  set (nrows := N.of_nat (length (first :: rest))).
  set (ncols := N.of_nat (length first)).
  destruct (fill_rows _ _ _ _) as [data' | |] eqn:Hfill; [| done | done].
  simpl. intros [= <-].
  apply fill_rows_returned in Hfill as [Hlen Hle].
  rewrite length_replicate in Hlen, Hle.
  assert (Hmod := size_mul_lt nrows ncols).
  assert (Hmodle : size_mul nrows ncols ≤ nrows * ncols)
    by apply N.Div0.mod_le.
  unfold wf, valid_dims. simpl.
  destruct (decide (ncols = 0)) as [Hz | Hnz].
  - rewrite Hlen, Hz. unfold size_mul. rewrite N.mul_0_r.
    split; [done |]. by rewrite N.Div0.mod_0_l.
  - specialize (Hle Hnz ltac:(done)). fold nrows in Hle.
    split; lia.
Qed.

End ListConstructor.

(** ** Reasoning about computations on the store *)

Section Triples.
Context {T : Type} `{Numeric T}.

Abbreviation heap := (gmap nat (Matrix T)).

Lemma returns_post {X} (Q : X → heap → Prop) E o : returns Q o → post Q E o.
Proof. by intros (x & h' & -> & HQ). Qed.

Lemma returns_mono {X} (Q Q' : X → heap → Prop) o :
  returns Q o → (∀ x h, Q x h → Q' x h) → returns Q' o.
Proof. intros (x & h' & -> & HQ) Himp. exists x, h'. auto. Qed.

Lemma post_mono {X} (Q Q' : X → heap → Prop) (E E' : exn → heap → Prop) o :
  post Q E o → (∀ x h, Q x h → Q' x h) → (∀ e h, E e h → E' e h) →
  post Q' E' o.
Proof. destruct o as [[x h'] | [e h'] |]; simpl; auto. Qed.

Lemma returns_bind {X Y} (Q : X → heap → Prop) (R : Y → heap → Prop)
    (m : M X) (k : X → M Y) h :
  returns Q (m h) → (∀ x h', Q x h' → returns R (k x h')) →
  returns R (bind m k h).
Proof. intros (x & h' & Hm & HQ) Hk. unfold bind. rewrite Hm. auto. Qed.

Lemma post_bind {X Y} (Q : X → heap → Prop) (R : Y → heap → Prop) E
    (m : M X) (k : X → M Y) h :
  post Q E (m h) → (∀ x h', Q x h' → post R E (k x h')) →
  post R E (bind m k h).
Proof.
  unfold bind. destruct (m h) as [[x h'] | [e h'] |]; simpl; auto.
Qed.

(** The loop rule, for a loop that returns: [I] holds on entry and every
    iteration carries it from [j] to [j + 1]. *)
Lemma returns_for_range {X} (I : N → X → heap → Prop) (body : N → X → M X)
    (n : nat) : ∀ i x h,
  I i x h →
  (∀ j x h, i ≤ j < i + N.of_nat n → I j x h →
            returns (I (N.succ j)) (body j x h)) →
  returns (I (i + N.of_nat n)) (for_range n i body x h).
Proof.
  induction n as [| n IH]; intros i x h Hi Hbody; simpl.
  - exists x, h. split; [done |]. by rewrite N.add_0_r.
  - eapply returns_bind; [apply Hbody; [lia | done] |].
    intros x' h' Hi'.
    replace (i + N.of_nat (S n)) with (N.succ i + N.of_nat n) by lia.
    apply IH; [done |]. intros j x'' h'' Hj. apply Hbody. lia.
Qed.

(** The loop rule, for a property of the store that every iteration
    keeps, whether or not the loop returns. *)
Lemma post_for_range {X} (P : heap → Prop) E (body : N → X → M X)
    (n : nat) : ∀ i x h,
  P h →
  (∀ j x h, P h → post (λ _, P) E (body j x h)) →
  post (λ _, P) E (for_range n i body x h).
Proof.
  induction n as [| n IH]; intros i x h HP Hbody; simpl; [done |].
  eapply post_bind; [by apply Hbody |].
  intros x' h' HP'. by apply IH.
Qed.

End Triples.

(** ** The product *)

Section Multiply.
Context {T : Type} `{Numeric T}.

Abbreviation heap := (gmap nat (Matrix T)).

Lemma get_elem (m : Matrix T) r c :
  wf m → in_bounds m r c → get m r c = Ok (elem m r c).
Proof.
  intros Hwf Hb. destruct (get_in_bounds m r c Hwf Hb) as (x & Hx & ->).
  unfold elem. by rewrite Hx.
Qed.

Lemma deref_ok (a : nat) (m : Matrix T) (h : heap) :
  h !! a = Some m → deref a h = Ok (m, h).
Proof. unfold deref. by intros ->. Qed.

Lemma rows_of_ok (a : nat) (m : Matrix T) (h : heap) :
  h !! a = Some m → rows_of a h = Ok (rows_ m, h).
Proof. intros Ha. unfold rows_of, bind. by rewrite (deref_ok _ _ _ Ha). Qed.

Lemma cols_of_ok (a : nat) (m : Matrix T) (h : heap) :
  h !! a = Some m → cols_of a h = Ok (cols_ m, h).
Proof. intros Ha. unfold cols_of, bind. by rewrite (deref_ok _ _ _ Ha). Qed.

Lemma read_ok (a : nat) (m : Matrix T) r c (h : heap) :
  h !! a = Some m → wf m → in_bounds m r c →
  read a r c h = Ok (elem m r c, h).
Proof.
  intros Ha Hwf Hb. unfold read, bind.
  rewrite (deref_ok _ _ _ Ha), op_call_in_bounds by done. simpl.
  destruct (get_in_bounds m r c Hwf Hb) as (x & Hx & _).
  unfold load, elem. by rewrite Hx.
Qed.

Lemma write_ok (a : nat) (m : Matrix T) r c v (h : heap) :
  h !! a = Some m → wf m → in_bounds m r c →
  write a r c v h
  = Ok (tt, <[a := store m (N.to_nat (r * cols_ m + c)) v]> h).
Proof.
  intros Ha Hwf Hb. unfold write, bind.
  by rewrite (deref_ok _ _ _ Ha), op_call_in_bounds.
Qed.

Lemma new_ok (m : Matrix T) (h : heap) :
  ∃ a, new m h = Ok (a, <[a := m]> h) ∧ h !! a = None.
Proof.
  exists (fresh (dom h)). split; [done |].
  apply not_elem_of_dom, is_fresh.
Qed.

Lemma returns_for_ {X} (I : N → X → heap → Prop) (bound : M N)
    (body : N → X → M X) (n : N) x (h : heap) :
  bound h = Ok (n, h) → I 0 x h →
  (∀ j x h, j < n → I j x h → returns (I (N.succ j)) (body j x h)) →
  returns (I n) (for_ bound body x h).
Proof.
  intros Hbound Hi Hbody. unfold for_, bind. rewrite Hbound.
  replace n with (0 + N.of_nat (N.to_nat n)) at 1 by lia.
  apply returns_for_range; [done |].
  intros j x' h' Hj. apply Hbody. lia.
Qed.

Lemma multiply_unfold (A B : nat) (h : heap) mA mB :
  h !! A = Some mA → h !! B = Some mB →
  multiply A B h
  = if decide (cols_ mA ≠ rows_ mB) then Throw (DimensionMismatch, h)
    else bind (new (Matrix_ctor (rows_ mA) (cols_ mB))) (λ C,
         bind (for_ (rows_of A) (outer_body A B C) tt) (λ _, ret C)) h.
Proof.
  intros HA HB. unfold multiply. unfold bind at 1.
  rewrite (cols_of_ok _ _ _ HA). unfold bind at 1.
  rewrite (rows_of_ok _ _ _ HB). case_decide; [done |].
  unfold bind at 1. rewrite (rows_of_ok _ _ _ HA). unfold bind at 1.
  by rewrite (cols_of_ok _ _ _ HB).
Qed.

Section LoopInvariants.
Variables (A B C : nat) (mA mB : Matrix T) (h : heap).
Hypothesis HA : h !! A = Some mA.
Hypothesis HB : h !! B = Some mB.
Hypothesis HC : h !! C = None.
Hypothesis HwA : wf mA.
Hypothesis HwB : wf mB.
Hypothesis Hdim : cols_ mA = rows_ mB.

Lemma operands_kept mC :
  <[C := mC]> h !! A = Some mA ∧ <[C := mC]> h !! B = Some mB.
Proof using HA HB HC.
  split; (rewrite lookup_insert_ne; [done | congruence]).
Qed.

Lemma inner_loop (hc : heap) i j :
  hc !! A = Some mA → hc !! B = Some mB →
  i < rows_ mA → j < cols_ mB →
  for_ (cols_of A) (inner_body A B i j) 0%float hc
  = Ok (dot mA mB i j, hc).
Proof using HwA HwB Hdim.
  intros HcA HcB Hi Hj.
  pose (term := λ k, to_double (mul (elem mA i k) (elem mB k j))).
  assert (Hret : returns
            (λ sum h', h' = hc ∧ sum = sum_double (N.to_nat (cols_ mA)) term)
            (for_ (cols_of A) (inner_body A B i j) 0%float hc)).
  { apply (returns_for_
             (λ k sum h', h' = hc ∧ sum = sum_double (N.to_nat k) term)).
    - by apply cols_of_ok.
    - done.
    - intros k sum h' Hk [-> ->]. unfold inner_body, bind.
      rewrite (read_ok A mA i k) by done.
      rewrite (read_ok B mB k j) by (done || split; lia).
      eexists _, _. split; [done |]. split; [done |].
      rewrite N2Nat.inj_succ. cbn [sum_double]. by rewrite N2Nat.id. }
  by destruct Hret as (sum & h' & -> & -> & ->).
Qed.

Lemma middle_loop mC i :
  i < rows_ mA → filled mA mB mC i 0 →
  returns (λ _ h', ∃ mC', h' = <[C := mC']> h ∧ filled mA mB mC' (N.succ i) 0)
          (for_ (cols_of B) (middle_body A B C i) tt (<[C := mC]> h)).
Proof using All.
  intros Hi Hfilled.
  eapply returns_mono.
  - apply (returns_for_
             (λ j _ h', ∃ mC', h' = <[C := mC']> h ∧ filled mA mB mC' i j)).
    + apply cols_of_ok, operands_kept.
    + eauto.
    + intros j [] h' Hj (mC' & -> & HwC & Hr & Hc & Hcells).
      destruct (operands_kept mC') as [HcA HcB].
      unfold middle_body, bind. rewrite inner_loop by done.
      rewrite (write_ok C mC' i j); [| apply lookup_insert_eq | done | split; lia].
      eexists _, _. split; [done |].
      eexists. split; [apply insert_insert_eq |].
      split; [by apply store_wf |]. do 2 (split; [done |]).
      intros i' j' Hj' Hbefore. simpl. rewrite Hc.
      destruct (decide (i' = i ∧ j' = j)) as [[-> ->] | Hne].
      * rewrite list_lookup_insert_eq; [done |].
        destruct HwC as [_ ->]. rewrite Hr, Hc.
        assert (i * cols_ mB + j < rows_ mA * cols_ mB)
          by by apply row_major_lt.
        lia.
      * rewrite list_lookup_insert_ne; [apply Hcells; [done | lia] |].
        intros Hsame. apply N2Nat.inj in Hsame.
        destruct (row_major_inj _ _ _ _ _ Hj Hj' Hsame) as [Hi' Hj''].
        apply Hne. by split.
  - intros [] h' (mC' & -> & HwC & Hr & Hc & Hcells).
    exists mC'. split; [done |]. do 3 (split; [done |]).
    intros i' j' Hj' Hbefore. apply Hcells; [done |]. lia.
Qed.

Lemma outer_loop :
  valid_dims (rows_ mA) (cols_ mB) →
  returns (λ _ h', ∃ mC, h' = <[C := mC]> h ∧
                          filled mA mB mC (rows_ mA) 0)
          (for_ (rows_of A) (outer_body A B C) tt
                (<[C := Matrix_ctor (rows_ mA) (cols_ mB)]> h)).
Proof using All.
  intros Hv.
  apply (returns_for_
           (λ i _ h', ∃ mC, h' = <[C := mC]> h ∧ filled mA mB mC i 0)).
  - apply rows_of_ok, operands_kept.
  - eexists. split; [done |].
    split; [by apply Matrix_ctor_wf |]. do 2 (split; [done |]).
    intros i' j' _ ?. lia.
  - intros i [] h' Hi (mC & -> & Hfilled). by apply middle_loop.
Qed.

End LoopInvariants.

(** The product, on operands that are well formed and compatible and
    whose result has a representable element count: [multiply] returns,
    the store gains the result at a new address and is otherwise as
    before, and each cell of the result is the [double] sum converted
    to [T]. *)
Lemma multiply_correct (A B : nat) (mA mB : Matrix T) (h : heap) :
  h !! A = Some mA → h !! B = Some mB →
  wf mA → wf mB → cols_ mA = rows_ mB →
  valid_dims (rows_ mA) (cols_ mB) →
  ∃ C mC,
    multiply A B h = Ok (C, <[C := mC]> h) ∧ h !! C = None ∧
    wf mC ∧ rows_ mC = rows_ mA ∧ cols_ mC = cols_ mB ∧
    ∀ i j, i < rows_ mA → j < cols_ mB →
           get mC i j = Ok (of_double (dot mA mB i j)).
Proof.
  intros HA HB HwA HwB Hdim Hv.
  rewrite (multiply_unfold A B h mA mB HA HB).
  rewrite decide_False by (intros Hne; by apply Hne).
  destruct (new_ok (Matrix_ctor (rows_ mA) (cols_ mB)) h) as (C & Hnew & HC).
  unfold bind at 1. rewrite Hnew.
  destruct (outer_loop A B C mA mB h HA HB HC HwA HwB Hdim Hv)
    as ([] & h' & Hloop & mC & -> & HwC & Hr & Hc & Hcells).
  unfold bind. rewrite Hloop.
  exists C, mC. do 5 (split; [done |]).
  intros i j Hi Hj.
  destruct (get_in_bounds mC i j) as (x & Hx & ->);
    [done | split; lia |].
  rewrite Hc, Hcells in Hx by (done || lia). congruence.
Qed.

(** *** What [multiply] does to the store, whatever the operands *)

Lemma inspects_deref a : inspects T (deref a).
Proof. intros h. unfold deref. by destruct (h !! a). Qed.

Lemma inspects_lift {X} (o : outcome exn X) :
  (∀ e, o ≠ Throw e) → inspects T (lift o).
Proof. intros Hne h. destruct o as [x | e |]; simpl; [done | | done]. by eapply Hne. Qed.

Lemma inspects_ret {X} (x : X) : inspects T (ret x).
Proof. by intros h. Qed.

Lemma inspects_bind {X Y} (m : M X) (k : X → M Y) :
  inspects T m → (∀ x, inspects T (k x)) → inspects T (bind m k).
Proof.
  intros Hm Hk h. specialize (Hm h). unfold bind.
  destruct (m h) as [[x h'] | [e h'] |]; simpl in *; [| done | done].
  subst h'. apply Hk.
Qed.

Lemma inspects_rows_of a : inspects T (rows_of a).
Proof. apply inspects_bind; [apply inspects_deref | intros m; apply inspects_ret]. Qed.

Lemma inspects_cols_of a : inspects T (cols_of a).
Proof. apply inspects_bind; [apply inspects_deref | intros m; apply inspects_ret]. Qed.

Lemma inspects_read a r c : inspects T (read a r c).
Proof.
  apply inspects_bind; [apply inspects_deref |]. intros m.
  apply inspects_bind.
  - apply inspects_lift. intros e. unfold op_call. by case_decide.
  - intros ref. apply inspects_lift. intros e. unfold load.
    by destruct (data_ m !! ref).
Qed.

Lemma inspects_for_range {X} (body : N → X → M X) (n : nat) :
  (∀ i x, inspects T (body i x)) → ∀ i x, inspects T (for_range n i body x).
Proof.
  intros Hbody. induction n as [| n IH]; intros i x; simpl.
  - apply inspects_ret.
  - apply inspects_bind; [apply Hbody | intros x'; apply IH].
Qed.

Lemma inspects_post {X} (P : heap → Prop) E (m : M X) (h : heap) :
  inspects T m → P h → post (λ _, P) E (m h).
Proof.
  intros Hm HP. specialize (Hm h).
  destruct (m h) as [[x h'] | [e h'] |]; simpl in *; [by subst | done | done].
Qed.

Lemma write_result_at (h : heap) C nrows ncols r c v (h' : heap) :
  result_at h C nrows ncols h' →
  post (λ _, result_at h C nrows ncols) (λ _ _, False) (write C r c v h').
Proof.
  intros (mC & -> & Hr & Hc & Hinv). unfold write, bind.
  rewrite (deref_ok C mC) by apply lookup_insert_eq.
  unfold op_call. case_decide; simpl; [| done].
  eexists. split; [apply insert_insert_eq |]. do 2 (split; [done |]).
  unfold Inv in *. simpl. by rewrite length_insert.
Qed.

Lemma for_result_at {X} (h : heap) C nrows ncols (bound : M N)
    (body : N → X → M X) x (h' : heap) :
  inspects T bound →
  (∀ i x h', result_at h C nrows ncols h' →
             post (λ _, result_at h C nrows ncols) (λ _ _, False) (body i x h')) →
  result_at h C nrows ncols h' →
  post (λ _, result_at h C nrows ncols) (λ _ _, False) (for_ bound body x h').
Proof.
  intros Hbound Hbody HP. unfold for_.
  eapply post_bind; [by apply inspects_post |].
  intros n h'' HP'. by apply post_for_range.
Qed.

Lemma multiply_frame (A B : nat) (mA mB : Matrix T) (h : heap) :
  h !! A = Some mA → h !! B = Some mB →
  post (λ C h', h !! C = None ∧ cols_ mA = rows_ mB ∧
                result_at h C (rows_ mA) (cols_ mB) h')
       (λ e h', e = DimensionMismatch ∧ h' = h ∧ cols_ mA ≠ rows_ mB)
       (multiply A B h).
Proof.
  intros HA HB. rewrite (multiply_unfold A B h mA mB HA HB).
  case_decide as Hdim; [done |].
  destruct (new_ok (Matrix_ctor (rows_ mA) (cols_ mB)) h) as (C & Hnew & HC).
  unfold bind at 1. rewrite Hnew.
  eapply (post_bind (λ _, result_at h C (rows_ mA) (cols_ mB))).
  - eapply (post_mono _ _ (λ _ _, False));
      [| intros x h' Hx; exact Hx | intros e h' []].
    apply for_result_at; [apply inspects_rows_of | |].
    + intros i [] h' Hh'. apply for_result_at; [apply inspects_cols_of | | done].
      intros j [] h'' Hh''. unfold middle_body.
      eapply post_bind; [| intros sum h3 Hh3; apply write_result_at, Hh3].
      apply inspects_post; [| done].
      apply inspects_bind; [apply inspects_cols_of |]. intros n.
      apply inspects_for_range. intros k sum. unfold inner_body.
      apply inspects_bind; [apply inspects_read |]. intros a.
      apply inspects_bind; [apply inspects_read |]. intros b.
      apply inspects_ret.
    + eexists. split; [done |]. do 2 (split; [done |]).
      unfold Inv. simpl. rewrite length_replicate. lia.
  - intros [] h' Hh'. simpl. done.
Qed.

End Multiply.

(** ** What [multiply] guarantees *)

Section MultiplySpec.
Context {T : Type} `{Numeric T}.

Abbreviation heap := (gmap nat (Matrix T)).

Lemma Inv_wf (m : Matrix T) : Inv m → valid_dims (rows_ m) (cols_ m) → wf m.
Proof.
  unfold Inv. intros Hinv Hv. split; [done |].
  rewrite size_mul_small in Hinv by done. lia.
Qed.

(** C1, as the code has it.  For well-formed operands with
    [A.cols() == B.rows()] whose
    result has a representable element count, [multiply(A, B)] returns a
    new matrix [C] with [A.rows()] rows and [B.cols()] columns, and each
    [C(i, j)] is the sum over [k] from [0] to [A.cols() - 1] of
    [A(i, k) * B(k, j)], the sum being formed by the code's arithmetic
    (products in [T], added up in [double] in increasing [k], the total
    converted to [T]). *)
Theorem multiply_spec (A B : nat) (mA mB : Matrix T) (h : heap) :
  h !! A = Some mA → h !! B = Some mB →
  wf mA → wf mB → cols mA = rows mB →
  valid_dims (rows mA) (cols mB) →
  ∃ C mC,
    multiply A B h = Ok (C, <[C := mC]> h) ∧ h !! C = None ∧
    rows mC = rows mA ∧ cols mC = cols mB ∧
    ∀ i j, i < rows mA → j < cols mB →
      (∀ k, k < cols mA →
            get mA i k = Ok (elem mA i k) ∧ get mB k j = Ok (elem mB k j)) ∧
      get mC i j
      = Ok (of_double
              (sum_double (N.to_nat (cols mA))
                 (λ k, to_double (mul (elem mA i k) (elem mB k j))))).
Proof.
  intros HA HB HwA HwB Hdim Hv.
  destruct (multiply_correct A B mA mB h HA HB HwA HwB Hdim Hv)
    as (C & mC & Hrun & HC & _ & Hr & Hc & Hcells).
  exists C, mC. do 4 (split; [done |]).
  intros i j Hi Hj. split; [| by apply Hcells].
  intros k Hk. unfold rows, cols in *.
  split; apply get_elem; try done; split; lia.
Qed.

(** C2.  With both operands live, [multiply(A, B)] throws exactly when
    [A.cols() != B.rows()]; the exception is the dimension-mismatch
    [runtime_error], and it leaves the store as it was: no result object
    has been created. *)
Theorem multiply_mismatch (A B : nat) (mA mB : Matrix T) (h : heap) :
  h !! A = Some mA → h !! B = Some mB →
  (multiply A B h = Throw (DimensionMismatch, h) ↔ cols mA ≠ rows mB) ∧
  (∀ e h', multiply A B h = Throw (e, h') →
           e = DimensionMismatch ∧ h' = h ∧ cols mA ≠ rows mB).
Proof.
  intros HA HB.
  assert (Hthrow : ∀ e h', multiply A B h = Throw (e, h') →
                           e = DimensionMismatch ∧ h' = h ∧ cols mA ≠ rows mB).
  { intros e h' Hrun. assert (Hpost := multiply_frame A B mA mB h HA HB).
    by rewrite Hrun in Hpost. }
  split; [| done]. split.
  - intros Hrun. by apply Hthrow in Hrun as (_ & _ & Hne).
  - intros Hne. rewrite (multiply_unfold A B h mA mB HA HB).
    by rewrite decide_True.
Qed.

(** C5.  In [multiply], the value of each cell is built in a [double]
    accumulator: it starts at [0.0], each step adds to it, in [double],
    one product [A(i, k) * B(k, j)] converted to [double], and only the
    final value is converted to [T], when it is assigned to [C(i, j)]. *)
Theorem multiply_accumulates_in_double (A B : nat) (mA mB : Matrix T) (h : heap) :
  h !! A = Some mA → h !! B = Some mB →
  wf mA → wf mB → cols mA = rows mB →
  valid_dims (rows mA) (cols mB) →
  ∃ C mC,
    multiply A B h = Ok (C, <[C := mC]> h) ∧
    ∀ i j, i < rows mA → j < cols mB →
      ∃ acc : nat → float,
        acc 0%nat = 0%float ∧
        (∀ k : nat, N.of_nat k < cols mA →
           ∃ a b, get mA i (N.of_nat k) = Ok a ∧
                  get mB (N.of_nat k) j = Ok b ∧
                  acc (S k) = (acc k + to_double (mul a b))%float) ∧
        get mC i j = Ok (of_double (acc (N.to_nat (cols mA)))).
Proof.
  intros HA HB HwA HwB Hdim Hv.
  destruct (multiply_correct A B mA mB h HA HB HwA HwB Hdim Hv)
    as (C & mC & Hrun & _ & _ & _ & _ & Hcells).
  exists C, mC. split; [done |]. intros i j Hi Hj.
  exists (λ n, sum_double n (λ k, to_double (mul (elem mA i k) (elem mB k j)))).
  split; [done |]. split; [| by apply Hcells].
  intros k Hk. exists (elem mA i (N.of_nat k)), (elem mB (N.of_nat k) j).
  unfold rows, cols in *.
  split; [apply get_elem; [done | split; lia] |].
  split; [apply get_elem; [done | split; lia] |]. done.
Qed.

(** C8.  With both operands live, whatever [multiply(A, B)] does it
    leaves them as they were.  If it returns, the store is the store
    before the call with one more object, the result, at an address that
    was free: [A], [B] and every other object have the dimensions and the
    buffer they had.  If it throws, the store is unchanged.  And on
    well-formed compatible operands with a representable result it does
    return. *)
Theorem multiply_inputs_unchanged (A B : nat) (mA mB : Matrix T) (h : heap) :
  h !! A = Some mA → h !! B = Some mB →
  match multiply A B h with
  | Ok (C, h') =>
      h !! C = None ∧ is_Some (h' !! C) ∧
      h' !! A = Some mA ∧ h' !! B = Some mB ∧
      ∀ a, a ≠ C → h' !! a = h !! a
  | Throw (_, h') => h' = h
  | Undefined => True
  end ∧
  (wf mA → wf mB → cols mA = rows mB → valid_dims (rows mA) (cols mB) →
   ∃ C h', multiply A B h = Ok (C, h')).
Proof.
  intros HA HB. split.
  - assert (Hpost := multiply_frame A B mA mB h HA HB).
    destruct (multiply A B h) as [[C h'] | [e h'] |]; simpl in Hpost;
      [| by destruct Hpost as (_ & -> & _) | done].
    destruct Hpost as (HC & _ & mC & -> & _).
    split; [done |]. split; [by rewrite lookup_insert_eq |].
    split; [rewrite lookup_insert_ne; [done | congruence] |].
    split; [rewrite lookup_insert_ne; [done | congruence] |].
    intros a Ha. by rewrite lookup_insert_ne.
  - intros HwA HwB Hdim Hv.
    destruct (multiply_correct A B mA mB h HA HB HwA HwB Hdim Hv)
      as (C & mC & Hrun & _).
    eauto.
Qed.

End MultiplySpec.

(** ** The representation invariant *)

Section Invariant.
Context {T : Type} `{Numeric T}.

Abbreviation heap := (gmap nat (Matrix T)).

Lemma set_returned (m : Matrix T) r c v m' :
  set m r c v = Ok m' →
  rows m' = rows m ∧ cols m' = cols m ∧
  length (data_ m') = length (data_ m).
Proof.
  unfold set, op_call. case_decide; [| done]. simpl. intros [= <-].
  repeat split. simpl. by rewrite length_insert.
Qed.

(** C9.  The buffer's length is [rows() * cols()] (the [size_t] product;
    the exact product whenever that is representable) in every matrix a
    constructor returns, and stays so: an assignment through
    [operator()] keeps the dimensions and the length of the buffer; a
    read through [operator()], [rows()] and [cols()] leave the store as it
    is; [multiply] keeps every object of the store with its dimensions,
    and every object of the store after it, its result included,
    satisfies the invariant. *)
Theorem invariant_preserved :
  (∀ nrows ncols,
     Inv (Matrix_ctor nrows ncols : Matrix T) ∧
     (valid_dims nrows ncols → wf (Matrix_ctor nrows ncols : Matrix T))) ∧
  (∀ values (m : Matrix T), Matrix_ctor_list values = Ok m → Inv m ∧ wf m) ∧
  (∀ (m : Matrix T) r c v m',
     set m r c v = Ok m' →
     rows m' = rows m ∧ cols m' = cols m ∧
     (Inv m → Inv m') ∧ (wf m → wf m')) ∧
  (∀ a r c, inspects T (read a r c)) ∧
  (∀ a, inspects T (rows_of a) ∧ inspects T (cols_of a)) ∧
  (∀ (A B : nat) (mA mB : Matrix T) (h : heap),
     h !! A = Some mA → h !! B = Some mB → heap_Inv h →
     match multiply A B h with
     | Ok (_, h') | Throw (_, h') => heap_Inv h' ∧ dims_kept h h'
     | Undefined => True
     end).
Proof.
  split; [| split; [| split; [| split; [| split]]]].
  - intros nrows ncols.
    assert (Hinv : Inv (Matrix_ctor nrows ncols : Matrix T)).
    { unfold Inv. simpl. rewrite length_replicate. lia. }
    split; [done |]. by apply Matrix_ctor_wf.
  - intros values m Hm. apply Matrix_ctor_list_wf in Hm.
    split; [by apply wf_Inv | done].
  - intros m r c v m' Hset.
    apply set_returned in Hset as (Hr & Hc & Hlen).
    unfold rows, cols, Inv, wf in *. rewrite Hr, Hc, Hlen. done.
  - apply inspects_read.
  - intros a. split; [apply inspects_rows_of | apply inspects_cols_of].
  - intros A B mA mB h HA HB Hinv.
    assert (Hpost := multiply_frame A B mA mB h HA HB).
    destruct (multiply A B h) as [[C h'] | [e h'] |]; simpl in Hpost;
      [| | done].
    + destruct Hpost as (HC & _ & mC & -> & _ & _ & HinvC). split.
      * intros a m Ha. destruct (decide (a = C)) as [-> | Hne].
        -- rewrite lookup_insert_eq in Ha. by injection Ha as <-.
        -- rewrite lookup_insert_ne in Ha by done. by eapply Hinv.
      * intros a m Ha. exists m. split; [| done].
        rewrite lookup_insert_ne; [done | congruence].
    + destruct Hpost as (_ & -> & _). split; [done |].
      intros a m Ha. by exists m.
Qed.

End Invariant.

(** * Scenarios on [Matrix<double>] *)

Example literal_2x3 :
  Matrix_ctor_list [[1; 2; 3]; [4; 5; 6]]%float = Ok A23.
Proof. vm_compute. reflexivity. Qed.

Example literal_ragged :
  Matrix_ctor_list [[1; 2; 3]; [4; 5]]%float = Throw InconsistentShape.
Proof. vm_compute. reflexivity. Qed.

Example literal_empty :
  Matrix_ctor_list ([] : list (list float)) = Undefined.
Proof. reflexivity. Qed.

Example multiply_2x2 :
  multiply 0 1 store_22_22 = Ok (2%nat, <[2%nat := AB22]> store_22_22).
Proof. vm_compute. reflexivity. Qed.

Example multiply_2x3_2x2 :
  multiply 0 1 store_23_22 = Throw (DimensionMismatch, store_23_22).
Proof. vm_compute. reflexivity. Qed.

(** The same object as both operands. *)
Example multiply_square :
  multiply 0 0 store_22_22
  = Ok (2%nat, <[2%nat := mkMatrix 2 2 [7; 10; 15; 22]%float]> store_22_22).
Proof. vm_compute. reflexivity. Qed.

(** [rows * cols] wraps: [Matrix<double>(2^32, 2^32)] has an empty buffer,
    and no pair is a valid index of it. *)
Example Matrix_ctor_wraps :
  data_ (Matrix_ctor (2 ^ 32) (2 ^ 32) : Matrix float) = [] ∧
  get (Matrix_ctor (2 ^ 32) (2 ^ 32) : Matrix float) 0 0 = Undefined.
Proof. vm_compute. done. Qed.

(** [r * cols_ + c] wraps as well. *)
Example offset_wraps : get A22 (2 ^ 63) 1 = Ok 2%float.
Proof. vm_compute. reflexivity. Qed.

Lemma wf_A22 : wf A22.
Proof. by vm_compute. Qed.

Lemma wf_B22 : wf B22.
Proof. by vm_compute. Qed.

(** [multiply_spec] on the 2x2 operands. *)
Lemma multiply_spec_witness :
  ∃ C mC,
    multiply 0 1 store_22_22 = Ok (C, <[C := mC]> store_22_22) ∧
    store_22_22 !! C = None ∧
    rows mC = rows A22 ∧ cols mC = cols B22 ∧
    ∀ i j, i < rows A22 → j < cols B22 →
      (∀ k, k < cols A22 →
            get A22 i k = Ok (elem A22 i k) ∧ get B22 k j = Ok (elem B22 k j)) ∧
      get mC i j
      = Ok (of_double
              (sum_double (N.to_nat (cols A22))
                 (λ k, to_double (mul (elem A22 i k) (elem B22 k j))))).
Proof.
  apply (multiply_spec 0 1 A22 B22 store_22_22);
    [reflexivity | reflexivity | apply wf_A22 | apply wf_B22 | reflexivity
    | reflexivity].
Defined.

(** [multiply_mismatch] on a 2x3 and a 2x2 operand. *)
Lemma multiply_mismatch_witness :
  (multiply 0 1 store_23_22 = Throw (DimensionMismatch, store_23_22)
   ↔ cols A23 ≠ rows B22) ∧
  (∀ e h', multiply 0 1 store_23_22 = Throw (e, h') →
           e = DimensionMismatch ∧ h' = store_23_22 ∧ cols A23 ≠ rows B22).
Proof.
  apply (multiply_mismatch 0 1 A23 B22 store_23_22); reflexivity.
Defined.

(** [multiply_accumulates_in_double] on the 2x2 operands. *)
Lemma multiply_accumulates_in_double_witness :
  ∃ C mC,
    multiply 0 1 store_22_22 = Ok (C, <[C := mC]> store_22_22) ∧
    ∀ i j, i < rows A22 → j < cols B22 →
      ∃ acc : nat → float,
        acc 0%nat = 0%float ∧
        (∀ k : nat, N.of_nat k < cols A22 →
           ∃ a b, get A22 i (N.of_nat k) = Ok a ∧
                  get B22 (N.of_nat k) j = Ok b ∧
                  acc (S k) = (acc k + to_double (mul a b))%float) ∧
        get mC i j = Ok (of_double (acc (N.to_nat (cols A22)))).
Proof.
  apply (multiply_accumulates_in_double 0 1 A22 B22 store_22_22);
    [reflexivity | reflexivity | apply wf_A22 | apply wf_B22 | reflexivity
    | reflexivity].
Defined.

(** [multiply_inputs_unchanged] on the 2x2 operands. *)
Lemma multiply_inputs_unchanged_witness :
  match multiply 0 1 store_22_22 with
  | Ok (C, h') =>
      store_22_22 !! C = None ∧ is_Some (h' !! C) ∧
      h' !! 0%nat = Some A22 ∧ h' !! 1%nat = Some B22 ∧
      ∀ a, a ≠ C → h' !! a = store_22_22 !! a
  | Throw (_, h') => h' = store_22_22
  | Undefined => True
  end ∧
  (wf A22 → wf B22 → cols A22 = rows B22 → valid_dims (rows A22) (cols B22) →
   ∃ C h', multiply 0 1 store_22_22 = Ok (C, h')).
Proof.
  apply (multiply_inputs_unchanged 0 1 A22 B22 store_22_22); reflexivity.
Defined.

(** [accessors_unchecked] at [(0, 2)] of the 2x2 matrix: the slot is that
    of the pair [(1, 0)]. *)
Lemma accessors_unchecked_witness :
  (∀ e, get A22 0 2 ≠ Throw e ∧ set A22 0 2 9%float ≠ Throw e) ∧
  ((2 < length (data_ A22))%nat →
     in_bounds A22 1 0 ∧
     ∃ x, data_ A22 !! 2%nat = Some x ∧
          get A22 0 2 = Ok x ∧
          get A22 1 0 = Ok x ∧
          set A22 0 2 9%float = Ok (store A22 2 9%float) ∧
          set A22 1 0 9%float = Ok (store A22 2 9%float) ∧
          data_ (store A22 2 9%float) = <[2%nat := 9%float]> (data_ A22) ∧
          get (store A22 2 9%float) 0 2 = Ok 9%float ∧
          get (store A22 2 9%float) 1 0 = Ok 9%float) ∧
  ((length (data_ A22) ≤ 2)%nat →
     get A22 0 2 = Undefined ∧ set A22 0 2 9%float = Undefined).
Proof.
  apply (accessors_unchecked A22 0 2 9%float); [apply wf_A22 |].
  right. by vm_compute.
Defined.

(** C3 fails on the code: column [2] is out of bounds for the 2x2 matrix,
    and yet the read returns (the element at [(1, 0)]) and the assignment
    goes through (to that element). *)
Lemma accessors_out_of_bounds_succeed :
  cols A22 ≤ 2 ∧
  get A22 0 2 = Ok 3%float ∧
  set A22 0 2 9%float = Ok (mkMatrix 2 2 [1; 2; 9; 4]%float).
Proof. vm_compute. repeat split; discriminate. Qed.

(** [construct_accepts_zero] at [(0, 3)], with the [max_size()] of
    [std::vector<double>] where [ptrdiff_t] is 64 bits wide and an
    allocator that has nothing left. *)
Lemma construct_accepts_zero_witness :
  construct_alloc (2 ^ 60 - 1) 0 0 3 = Ok (mkMatrix 0 3 [] : Matrix float) ∧
  construct 0 3 = Ok (mkMatrix 0 3 [] : Matrix float).
Proof.
  apply (@construct_accepts_zero float Numeric_double (2 ^ 60 - 1) 0 0 3).
  by left.
Defined.

(** A count above [max_size()] is refused. *)
Example construct_alloc_length_error :
  construct_alloc (2 ^ 60 - 1) (2 ^ 30) (2 ^ 61) 1
  = (Throw length_error : outcome alloc_failure (Matrix float)).
Proof. reflexivity. Qed.

(** C4 fails on the code: [Matrix<double>(0, 3)] is constructed. *)
Lemma construct_0_3_succeeds :
  construct 0 3 = Ok (mkMatrix 0 3 [] : Matrix float).
Proof. reflexivity. Qed.

(** [construct_zero] at [(2, 3)]. *)
Lemma construct_zero_witness :
  ∃ m : Matrix float,
    construct 2 3 = Ok m ∧ rows m = 2 ∧ cols m = 3 ∧
    ∀ r c, r < 2 → c < 3 → get m r c = Ok 0%float.
Proof. apply (@construct_zero float Numeric_double 2 3). reflexivity. Defined.

(** [set_get] at [(1, 0)] of the 2x2 matrix. *)
Lemma set_get_witness :
  ∃ m', set A22 1 0 9%float = Ok m' ∧
        get m' 1 0 = Ok 9%float ∧
        ∀ r' c', in_bounds A22 r' c' → (r', c') ≠ (1, 0) →
                 get m' r' c' = get A22 r' c'.
Proof.
  apply (set_get A22 1 0 9%float); [apply wf_A22 | by vm_compute].
Defined.

(** C10 fails on the code: [Matrix<double>(2^63 + 1, 2)] has a buffer of
    two elements, the pairs [(2^63, 0)] and [(0, 0)] are both in bounds
    and different, and the assignment to the first changes what the read
    of the second returns. *)
Lemma set_changes_other_pair :
  M_wrapped = Matrix_ctor (2 ^ 63 + 1) 2 ∧
  in_bounds M_wrapped (2 ^ 63) 0 ∧ in_bounds M_wrapped 0 0 ∧
  (0, 0) ≠ (2 ^ 63, 0) ∧
  get M_wrapped 0 0 = Ok 0%float ∧
  ∃ m', set M_wrapped (2 ^ 63) 0 9%float = Ok m' ∧
        get m' 0 0 = Ok 9%float.
Proof.
  split; [reflexivity |]. split; [by vm_compute |]. split; [by vm_compute |].
  split; [discriminate |]. split; [reflexivity |].
  eexists. split; reflexivity.
Qed.

(** [Matrix_ctor_list_spec] on a 2x3 list. *)
Lemma Matrix_ctor_list_spec_witness :
  let first := [1; 2; 3]%float in
  let values := [first; [4; 5; 6]%float] in
  ((∃ row, row ∈ values ∧ length row ≠ length first) →
     Matrix_ctor_list values = Throw InconsistentShape) ∧
  ((∀ row, row ∈ values → length row = length first) →
     ∃ m, Matrix_ctor_list values = Ok m ∧
          rows m = N.of_nat (length values) ∧
          cols m = N.of_nat (length first) ∧
          data_ m = concat values ∧
          ∀ (r c : nat) row x,
            values !! r = Some row → row !! c = Some x →
            get m (N.of_nat r) (N.of_nat c) = Ok x).
Proof.
  apply (Matrix_ctor_list_spec [1; 2; 3]%float [[4; 5; 6]%float]).
  reflexivity.
Defined.

Lemma heap_Inv_store_22_22 : heap_Inv store_22_22.
Proof.
  intros a m. unfold store_22_22. rewrite !lookup_insert.
  repeat case_decide; [| | by rewrite lookup_empty]; by intros [= <-].
Qed.

(** [invariant_preserved] on the 2x2 operands. *)
Lemma invariant_preserved_witness :
  Inv (Matrix_ctor 2 3 : Matrix float) ∧
  match multiply 0 1 store_22_22 with
  | Ok (_, h') | Throw (_, h') => heap_Inv h' ∧ dims_kept store_22_22 h'
  | Undefined => True
  end.
Proof.
  destruct (@invariant_preserved float _) as (Hctor & _ & _ & _ & _ & Hmul).
  split; [apply (Hctor 2 3) |].
  apply (Hmul 0%nat 1%nat A22 B22 store_22_22);
    [reflexivity | reflexivity | apply heap_Inv_store_22_22].
Defined.

(** * Further properties of the container *)

Section Representation.
Context {T : Type} `{Numeric T}.
Implicit Types m : Matrix T.

(** A slot of the buffer of a well-formed matrix is the slot of one
    in-bounds pair. *)
Lemma slot_pair m (k : nat) :
  wf m → (k < length (data_ m))%nat →
  ∃ r c, in_bounds m r c ∧ N.to_nat (r * cols_ m + c) = k.
Proof.
  intros [Hv Hl] Hk. rewrite Hl in Hk.
  assert (Hc : cols_ m ≠ 0) by (intros Hz; rewrite Hz in Hk; lia).
  exists (N.of_nat k / cols_ m), (N.of_nat k mod cols_ m).
  split; [split |].
  - apply N.Div0.div_lt_upper_bound. lia.
  - by apply N.mod_upper_bound.
  - rewrite (N.mul_comm _ (cols_ m)), <- N.div_mod by done. lia.
Qed.

(** Two well-formed matrices of the same dimensions whose reads agree in
    bounds have the same buffer. *)
Lemma matrix_eq_of_reads m1 m2 :
  wf m1 → wf m2 → rows_ m1 = rows_ m2 → cols_ m1 = cols_ m2 →
  (∀ r c, in_bounds m1 r c → get m1 r c = get m2 r c) →
  m1 = m2.
Proof.
  intros Hw1 Hw2 Hr Hc Hget.
  assert (Hlen : length (data_ m1) = length (data_ m2)).
  { destruct Hw1 as [_ ->], Hw2 as [_ ->]. by rewrite Hr, Hc. }
  assert (Hdata : data_ m1 = data_ m2).
  { apply list_eq. intros k.
    destruct (decide (k < length (data_ m1))%nat) as [Hk | Hk].
    - destruct (slot_pair m1 k Hw1 Hk) as (r & c & Hb & <-).
      assert (Hb2 : in_bounds m2 r c)
        by (destruct Hb; split; [by rewrite <- Hr | by rewrite <- Hc]).
      destruct (get_in_bounds m1 r c Hw1 Hb) as (x & Hx & Hg1).
      destruct (get_in_bounds m2 r c Hw2 Hb2) as (y & Hy & Hg2).
      rewrite Hx. rewrite Hc, Hy. specialize (Hget r c Hb). congruence.
    - rewrite !lookup_ge_None_2; [done | lia | lia]. }
  destruct m1, m2. simpl in *. congruence.
Qed.

(** X1.  Two well-formed matrices with the same dimensions whose reads
    agree at every in-bounds pair are the same matrix: the dimensions and
    the in-bounds elements are all there is to a matrix. *)
Theorem matrix_ext m1 m2 :
  wf m1 → wf m2 → rows m1 = rows m2 → cols m1 = cols m2 →
  (∀ r c, r < rows m1 → c < cols m1 → get m1 r c = get m2 r c) →
  m1 = m2.
Proof.
  intros Hw1 Hw2 Hr Hc Hget. apply matrix_eq_of_reads; [done .. |].
  intros r c [Hrb Hcb]. by apply Hget.
Qed.

(** X2.  Writing twice to the same pair is writing the second value:
    whatever the pair, if the first assignment went through, the second
    gives what it would have given on the matrix before the first. *)
Theorem set_set_same m r c v w m1 :
  set m r c v = Ok m1 → set m1 r c w = set m r c w.
Proof.
  unfold set, op_call, offset. case_decide as Hlt; [| done]. simpl.
  intros [= <-]. simpl. rewrite length_insert, decide_True by done. simpl.
  unfold store. simpl. by rewrite list_insert_insert_eq.
Qed.

(** X3.  Assignments to two different in-bounds pairs of a well-formed
    matrix commute. *)
Theorem set_set_comm m r c v r' c' w :
  wf m → in_bounds m r c → in_bounds m r' c' → (r, c) ≠ (r', c') →
  ∃ m1 m2 m12,
    set m r c v = Ok m1 ∧ set m r' c' w = Ok m2 ∧
    set m1 r' c' w = Ok m12 ∧ set m2 r c v = Ok m12.
Proof.
  intros Hwf Hb Hb' Hne.
  set (i := N.to_nat (r * cols_ m + c)).
  set (i' := N.to_nat (r' * cols_ m + c')).
  assert (Hii' : i ≠ i').
  { intros Hsame. apply N2Nat.inj in Hsame.
    destruct Hb as [_ Hc], Hb' as [_ Hc'].
    destruct (row_major_inj _ _ _ _ _ Hc Hc' Hsame). congruence. }
  exists (store m i v), (store m i' w), (store (store m i v) i' w).
  assert (Hw1 := store_wf m i v Hwf). assert (Hw2 := store_wf m i' w Hwf).
  unfold set.
  rewrite (op_call_in_bounds m r c), (op_call_in_bounds m r' c') by done.
  rewrite (op_call_in_bounds (store m i v) r' c') by done.
  rewrite (op_call_in_bounds (store m i' w) r c) by done.
  simpl. do 3 (split; [done |]). fold i i'. unfold store. simpl.
  by rewrite list_insert_insert_ne.
Qed.

(** X4.  Writing back the value just read changes nothing: if the read of
    [(r, c)] returns [x], assigning [x] to [(r, c)] returns the matrix as
    it was. *)
Theorem set_get_id m r c x :
  get m r c = Ok x → set m r c x = Ok m.
Proof.
  unfold get, op_call_const, set, op_call.
  destruct (data_ m !! N.to_nat (offset m r c)) as [y |] eqn:Hy; [| done].
  intros [= ->]. rewrite decide_True by by eapply lookup_lt_Some.
  simpl. unfold store. rewrite list_insert_id by done. by destruct m.
Qed.

(** X5.  A column index past the end of a row silently addresses the
    next row: column [cols() + c] of row [r] is column [c] of row
    [r + 1], for reads and for assignments, on any matrix. *)
Theorem column_overrun m r c v :
  get m r (cols m + c) = get m (r + 1) c ∧
  set m r (cols m + c) v = set m (r + 1) c v.
Proof.
  assert (Hoff : offset m r (cols m + c) = offset m (r + 1) c).
  { unfold offset, size_add, size_mul, cols.
    rewrite !N.Div0.add_mod_idemp_l. f_equal. lia. }
  unfold get, op_call_const, set, op_call. by rewrite Hoff.
Qed.

(** X6.  The sized constructor does not guard [rows * cols]: for
    dimensions whose element count is not a [size_t] the buffer is too
    short, and some in-bounds pair is outside it, for reads and for
    assignments. *)
Theorem Matrix_ctor_overflow (nrows ncols : N) :
  ¬ valid_dims nrows ncols →
  ∃ r c, r < nrows ∧ c < ncols ∧
         get (Matrix_ctor nrows ncols : Matrix T) r c = Undefined ∧
         ∀ v, set (Matrix_ctor nrows ncols : Matrix T) r c v = Undefined.
Proof.
  unfold valid_dims. intros Hv.
  assert (Hge : SIZE_MODULUS ≤ nrows * ncols) by lia.
  assert (Hpos : 0 < SIZE_MODULUS) by done.
  assert (Hc : ncols ≠ 0) by (intros ->; lia).
  set (top := SIZE_MODULUS - 1).
  exists (top / ncols), (top mod ncols).
  assert (Hr : top / ncols < nrows)
    by (apply N.Div0.div_lt_upper_bound; lia).
  assert (Hcc : top mod ncols < ncols) by by apply N.mod_upper_bound.
  assert (Htop : top / ncols * ncols + top mod ncols = top)
    by (rewrite (N.mul_comm _ ncols), <- N.div_mod; done).
  assert (Hoff : offset (Matrix_ctor nrows ncols : Matrix T)
                        (top / ncols) (top mod ncols) = top).
  { unfold offset, size_add, size_mul. simpl.
    rewrite N.Div0.add_mod_idemp_l, Htop. apply N.mod_small. lia. }
  assert (Hlen : (length (data_ (Matrix_ctor nrows ncols : Matrix T))
                  ≤ N.to_nat top)%nat).
  { simpl. rewrite length_replicate.
    assert (Hm := size_mul_lt nrows ncols). lia. }
  do 2 (split; [done |]).
  unfold get, op_call_const, set, op_call. rewrite Hoff.
  split; [by rewrite lookup_ge_None_2 | intros v].
  by rewrite decide_False by lia.
Qed.

End Representation.

(** ** Every outcome of the constructor from a nested list *)

Section ListConstructorOutcomes.
Context {T : Type} `{Numeric T}.
Implicit Types (row : list T) (values : list (list T)).

Lemma fill_row_no_throw row : ∀ data i e, fill_row row data i ≠ Throw e.
Proof.
  induction row as [| v row IH]; intros data i e; simpl; [done |].
  case_decide; [apply IH | done].
Qed.

Lemma fill_rows_thrown values (ncols : N) : ∀ data i e,
  fill_rows values ncols data i = Throw e →
  e = InconsistentShape ∧
  ∃ row, row ∈ values ∧ N.of_nat (length row) ≠ ncols.
Proof.
  induction values as [| row values IH]; intros data i e Hfill;
    simpl in Hfill; [done |].
  case_decide as Hne.
  - injection Hfill as <-. split; [done |]. exists row. split; [left | done].
  - destruct (fill_row row data i) as [[data1 i1] | e' |] eqn:Hfr;
      simpl in Hfill; [| by apply fill_row_no_throw in Hfr | done].
    apply IH in Hfill as (-> & row' & Hin & Hlen).
    split; [done |]. exists row'. split; [by right | done].
Qed.

(** With a representable declared shape, the constructor is decided by
    whether the rows all have the first row's length. *)
Lemma Matrix_ctor_list_run (first : list T) (rest : list (list T)) :
  valid_dims (N.of_nat (length (first :: rest))) (N.of_nat (length first)) →
  Matrix_ctor_list (first :: rest)
  = if decide (Forall (λ row, length row = length first) (first :: rest))
    then Ok (mkMatrix (N.of_nat (length (first :: rest)))
                      (N.of_nat (length first)) (concat (first :: rest)))
    else Throw InconsistentShape.
Proof.
  intros Hv.
  set (total := N.to_nat (N.of_nat (length (first :: rest))
                          * N.of_nat (length first))).
  assert (Hfill :
    fill_rows (first :: rest) (N.of_nat (length first))
              (replicate total value_init) 0
    = if decide (Forall (λ row, length row = length first) (first :: rest))
      then Ok (concat (first :: rest)) else Throw InconsistentShape).
  { etrans;
      [apply (fill_rows_app (first :: rest) (length first) value_init []);
       unfold total; lia |].
    case_decide; [| done].
    replace (_ - _)%nat with 0%nat by (unfold total; lia).
    by rewrite app_nil_l, app_nil_r. }
  unfold Matrix_ctor_list. rewrite size_mul_small by done.
  fold total. rewrite Hfill. by case_decide.
Qed.

(** X7.  The constructor from a nested list returns a matrix exactly when
    the list is non-empty, all rows have the first row's length and the
    element count is a [size_t]; the matrix is then the one with that
    many rows and columns whose buffer is the rows one after another.
    In every other case no matrix is returned. *)
Theorem Matrix_ctor_list_returns_iff values (m : Matrix T) :
  Matrix_ctor_list values = Ok m ↔
  ∃ first rest,
    values = first :: rest ∧
    Forall (λ row, length row = length first) values ∧
    valid_dims (N.of_nat (length values)) (N.of_nat (length first)) ∧
    m = mkMatrix (N.of_nat (length values)) (N.of_nat (length first))
                 (concat values).
Proof.
  split.
  - intros Hm. destruct values as [| first rest]; [done |].
    exists first, rest. split; [done |].
    assert (Hv : valid_dims (N.of_nat (length (first :: rest)))
                            (N.of_nat (length first))).
    { assert (Hwf := Matrix_ctor_list_wf _ _ Hm). destruct Hwf as [Hv _].
      unfold Matrix_ctor_list in Hm.
      destruct (fill_rows _ _ _ _) as [data' | |]; [| done | done].
      simpl in Hm. by injection Hm as <-. }
    rewrite (Matrix_ctor_list_run first rest Hv) in Hm.
    case_decide; [| done]. by injection Hm as <-.
  - intros (first & rest & -> & Hall & Hv & ->).
    rewrite (Matrix_ctor_list_run first rest Hv). by rewrite decide_True.
Qed.

(** X8.  The only exception the constructor from a nested list throws is
    the inconsistent-row-length [runtime_error], and it throws it only
    for a list in which some row's length differs from the first row's. *)
Theorem Matrix_ctor_list_throws values e :
  Matrix_ctor_list values = Throw e →
  e = InconsistentShape ∧
  ∃ first rest row,
    values = first :: rest ∧ row ∈ values ∧ length row ≠ length first.
Proof.
  destruct values as [| first rest]; [done |].
  unfold Matrix_ctor_list.
  destruct (fill_rows _ _ _ _) as [data' | e' |] eqn:Hfill; [done | | done].
  simpl. intros [= ->].
  apply fill_rows_thrown in Hfill as (-> & row & Hin & Hlen).
  split; [done |]. exists first, rest, row.
  split; [done |]. split; [done | lia].
Qed.

End ListConstructorOutcomes.

(** * Further properties of the product *)

Section MultiplyFurther.
Context {T : Type} `{Numeric T}.

Abbreviation heap := (gmap nat (Matrix T)).

(** X9.  When the shared dimension is zero ([A] has no columns and [B] no
    rows) every sum is empty, and [multiply] returns the matrix the sized
    constructor builds: [A.rows()] by [B.cols()], all [T(0.0)]. *)
Theorem multiply_empty_inner (A B : nat) (mA mB : Matrix T) (h : heap) :
  h !! A = Some mA → h !! B = Some mB →
  wf mA → wf mB → cols mA = 0 → rows mB = 0 →
  valid_dims (rows mA) (cols mB) →
  ∃ C, h !! C = None ∧
       multiply A B h
       = Ok (C, <[C := Matrix_ctor (rows mA) (cols mB)]> h).
Proof.
  unfold rows, cols. intros HA HB HwA HwB HcA HrB Hv.
  destruct (multiply_correct A B mA mB h HA HB HwA HwB) as
    (C & mC & Hrun & HC & HwC & Hr & Hc & Hcells); [congruence | done |].
  exists C. split; [done |]. rewrite Hrun. do 3 f_equal.
  apply matrix_eq_of_reads; [done | by apply Matrix_ctor_wf | done | done |].
  intros i j [Hi Hj]. rewrite Hr in Hi. rewrite Hc in Hj.
  rewrite Hcells, get_Matrix_ctor by done.
  unfold dot. by rewrite HcA.
Qed.

(** X10.  The matrix [multiply] returns depends on the values of its
    operands only: not on the store, not on the addresses of the
    operands, and not on whether the two operands are one object. *)
Theorem multiply_value_only (A1 B1 A2 B2 : nat) (mA mB : Matrix T)
    (h1 h2 : heap) :
  h1 !! A1 = Some mA → h1 !! B1 = Some mB →
  h2 !! A2 = Some mA → h2 !! B2 = Some mB →
  wf mA → wf mB → cols mA = rows mB →
  valid_dims (rows mA) (cols mB) →
  ∃ C1 C2 mC,
    multiply A1 B1 h1 = Ok (C1, <[C1 := mC]> h1) ∧
    multiply A2 B2 h2 = Ok (C2, <[C2 := mC]> h2).
Proof.
  intros HA1 HB1 HA2 HB2 HwA HwB Hdim Hv.
  destruct (multiply_correct A1 B1 mA mB h1 HA1 HB1 HwA HwB Hdim Hv) as
    (C1 & mC1 & Hrun1 & _ & HwC1 & Hr1 & Hc1 & Hcells1).
  destruct (multiply_correct A2 B2 mA mB h2 HA2 HB2 HwA HwB Hdim Hv) as
    (C2 & mC2 & Hrun2 & _ & HwC2 & Hr2 & Hc2 & Hcells2).
  exists C1, C2, mC1. split; [done |].
  replace mC1 with mC2; [done |].
  apply matrix_eq_of_reads; [done | done | congruence | congruence |].
  intros i j [Hi Hj]. rewrite Hr2 in Hi. rewrite Hc2 in Hj.
  by rewrite Hcells1, Hcells2.
Qed.

(** X11.  Products chain: with [A], [B] and [D] well formed, compatible
    and of representable result sizes, [multiply(multiply(A, B), D)]
    returns; the store gains the two results and nothing else changes;
    the final result has [A.rows()] rows and [D.cols()] columns and its
    cells are the sums over the cells of the intermediate product. *)
Theorem multiply_chain (A B D : nat) (mA mB mD : Matrix T) (h : heap) :
  h !! A = Some mA → h !! B = Some mB → h !! D = Some mD →
  wf mA → wf mB → wf mD →
  cols mA = rows mB → cols mB = rows mD →
  valid_dims (rows mA) (cols mB) → valid_dims (rows mA) (cols mD) →
  ∃ AB E mAB mE,
    bind (multiply A B) (λ AB, multiply AB D) h
    = Ok (E, <[E := mE]> (<[AB := mAB]> h)) ∧
    h !! AB = None ∧ h !! E = None ∧ AB ≠ E ∧
    rows mE = rows mA ∧ cols mE = cols mD ∧
    ∀ i j, i < rows mA → j < cols mD →
      get mE i j = Ok (of_double (dot mAB mD i j)) ∧
      ∀ k, k < cols mB → get mAB i k = Ok (of_double (dot mA mB i k)).
Proof.
  unfold rows, cols.
  intros HA HB HD HwA HwB HwD HdimAB HdimBD HvAB HvAD.
  destruct (multiply_correct A B mA mB h HA HB HwA HwB HdimAB HvAB) as
    (AB & mAB & Hrun1 & HAB & HwAB & Hr1 & Hc1 & Hcells1).
  assert (HD' : <[AB := mAB]> h !! D = Some mD)
    by (rewrite lookup_insert_ne; [done | congruence]).
  destruct (multiply_correct AB D mAB mD (<[AB := mAB]> h)) as
    (E & mE & Hrun2 & HE & HwE & Hr2 & Hc2 & Hcells2);
    [apply lookup_insert_eq | done | done | done | congruence
    | by rewrite Hr1 |].
  exists AB, E, mAB, mE. unfold bind. rewrite Hrun1.
  split; [done |]. split; [done |].
  assert (AB ≠ E) by (intros ->; by rewrite lookup_insert_eq in HE).
  split; [by rewrite lookup_insert_ne in HE |]. split; [done |].
  split; [congruence |]. split; [done |].
  intros i j Hi Hj. split.
  - apply Hcells2; [by rewrite Hr1 | done].
  - intros k Hk. by apply Hcells1.
Qed.

(** *** The product whose element count is not a [size_t] *)

(** A loop crashes if one of its iterations does and the iterations
    before it return, keeping what that iteration needs. *)
Lemma crashes_for_range {X} (P : heap → Prop) (body : N → X → M X) :
  ∀ (k n : nat) i x (h : heap),
    (k < n)%nat → P h →
    (∀ j x h, i ≤ j < i + N.of_nat k → P h →
              returns (λ _, P) (body j x h)) →
    (∀ x h, P h → body (i + N.of_nat k) x h = Undefined) →
    for_range n i body x h = Undefined.
Proof.
  induction k as [| k IH]; intros n i x h Hk HP Hbefore Hcrash;
    (destruct n as [| n]; [lia |]); simpl; unfold bind.
  - specialize (Hcrash x h HP).
    replace (i + N.of_nat 0) with i in Hcrash by lia. by rewrite Hcrash.
  - destruct (Hbefore i x h) as (x' & h' & -> & HP'); [lia | done |].
    apply (IH n (N.succ i) x' h'); [lia | done | |].
    + intros j x'' h'' Hj. apply Hbefore. lia.
    + intros x'' h'' HP''.
      replace (N.succ i + N.of_nat k) with (i + N.of_nat (S k)) by lia.
      by apply Hcrash.
Qed.

Lemma crashes_for_ {X} (P : heap → Prop) (bound : M N)
    (body : N → X → M X) (n k : N) x (h : heap) :
  bound h = Ok (n, h) → k < n → P h →
  (∀ j x h, j < k → P h → returns (λ _, P) (body j x h)) →
  (∀ x h, P h → body k x h = Undefined) →
  for_ bound body x h = Undefined.
Proof.
  intros Hbound Hk HP Hbefore Hcrash. unfold for_, bind. rewrite Hbound.
  apply (crashes_for_range P body (N.to_nat k)); [lia | done | |].
  - intros j x' h' Hj. apply Hbefore. lia.
  - intros x' h' HP'. replace (0 + N.of_nat (N.to_nat k)) with k by lia.
    by apply Hcrash.
Qed.

(** An assignment through [operator()], by where its slot falls. *)
Lemma write_inside (a : nat) (m : Matrix T) r c v (h : heap) :
  h !! a = Some m → (N.to_nat (offset m r c) < length (data_ m))%nat →
  write a r c v h = Ok (tt, <[a := store m (N.to_nat (offset m r c)) v]> h).
Proof.
  intros Ha Hlt. unfold write, bind. rewrite (deref_ok _ _ _ Ha).
  unfold op_call. by rewrite decide_True.
Qed.

Lemma write_outside (a : nat) (m : Matrix T) r c v (h : heap) :
  h !! a = Some m → (length (data_ m) ≤ N.to_nat (offset m r c))%nat →
  write a r c v h = Undefined.
Proof.
  intros Ha Hge. unfold write, bind. rewrite (deref_ok _ _ _ Ha).
  unfold op_call. by rewrite decide_False by lia.
Qed.

(** With a result whose element count is not a [size_t], the loops reach
    a cell whose slot is past the end of the buffer of [C]. *)
Lemma multiply_overflow_crashes (A B : nat) (mA mB : Matrix T) (h : heap) :
  h !! A = Some mA → h !! B = Some mB →
  wf mA → wf mB → cols mA = rows mB →
  ¬ valid_dims (rows mA) (cols mB) →
  multiply A B h = Undefined.
Proof.
  unfold rows, cols, valid_dims. intros HA HB HwA HwB Hdim Hv.
  set (ra := rows_ mA) in *. set (cb := cols_ mB) in *.
  set (len := size_mul ra cb).
  assert (Hlen : len < SIZE_MODULUS) by apply size_mul_lt.
  assert (Hcb : cb ≠ 0) by (intros Hz; rewrite Hz in Hv; lia).
  set (i0 := len / cb). set (j0 := len mod cb).
  assert (Hi0 : i0 < ra) by (apply N.Div0.div_lt_upper_bound; lia).
  assert (Hj0 : j0 < cb) by by apply N.mod_upper_bound.
  assert (Hsplit : i0 * cb + j0 = len)
    by (unfold i0, j0; rewrite (N.mul_comm _ cb), <- N.div_mod; done).
  rewrite (multiply_unfold A B h mA mB HA HB).
  rewrite decide_False by (intros Hne; by apply Hne).
  destruct (new_ok (Matrix_ctor ra cb) h) as (C & Hnew & HC).
  unfold bind at 1. fold ra cb. rewrite Hnew. unfold bind.
  set (P := λ h' : heap,
         ∃ mC, h' = <[C := mC]> h ∧ cols_ mC = cb ∧
               length (data_ mC) = N.to_nat len).
  assert (Hcell : ∀ i j v (h' : heap), P h' → i * cb + j < len →
            returns (λ _, P) (write C i j v h')).
  { intros i j v h' (mC & -> & Hc & Hl) Hlt.
    assert (Hoff : offset mC i j = i * cb + j).
    { unfold offset, size_add, size_mul. rewrite Hc.
      rewrite N.Div0.add_mod_idemp_l. apply N.mod_small. lia. }
    rewrite (write_inside C mC);
      [| apply lookup_insert_eq | rewrite Hoff; lia].
    eexists _, _. split; [done |]. eexists. split; [apply insert_insert_eq |].
    simpl. by rewrite length_insert. }
  assert (Hkept : ∀ mC, <[C := mC]> h !! A = Some mA ∧
                        <[C := mC]> h !! B = Some mB)
    by (intros mC; by apply operands_kept).
  assert (Hinner : ∀ i j (h' : heap), P h' → i < ra → j < cb →
            for_ (cols_of A) (inner_body A B i j) 0%float h'
            = Ok (dot mA mB i j, h')).
  { intros i j h' (mC & -> & _) Hi Hj.
    destruct (Hkept mC) as [HcA HcB]. by apply inner_loop. }
  rewrite (crashes_for_ P (rows_of A) (outer_body A B C) ra i0); [done | ..].
  - apply rows_of_ok, Hkept.
  - done.
  - exists (Matrix_ctor ra cb). do 2 (split; [done |]).
    simpl. by rewrite length_replicate.
  - intros i [] h' Hi HP. unfold outer_body.
    apply (returns_for_ (λ _ _, P) _ _ cb); [| done |].
    + destruct HP as (mC & -> & _). apply cols_of_ok, Hkept.
    + intros j [] h'' Hj HP'. unfold middle_body, bind.
      rewrite Hinner by (done || lia). apply Hcell; [done |]. nia.
  - intros [] h' HP. unfold outer_body.
    apply (crashes_for_ P (cols_of B) (middle_body A B C i0) cb j0);
      [| done | done | |].
    + destruct HP as (mC & -> & _). apply cols_of_ok, Hkept.
    + intros j [] h'' Hj HP'. unfold middle_body, bind.
      rewrite Hinner by (done || lia). apply Hcell; [done |]. lia.
    + intros [] h'' HP'. unfold middle_body, bind.
      rewrite Hinner by done. destruct HP' as (mC & -> & Hc & Hl).
      apply (write_outside C mC); [apply lookup_insert_eq |].
      unfold offset, size_add, size_mul. rewrite Hc.
      rewrite N.Div0.add_mod_idemp_l, Hsplit, N.mod_small by done. lia.
Qed.

(** X12.  [multiply] does not guard the size of its result: on
    well-formed compatible operands with [A.rows() * B.cols()] not a
    [size_t], the buffer of [C] is too short and the loops assign past
    its end.  The call neither returns nor throws. *)
Theorem multiply_result_overflow (A B : nat) (mA mB : Matrix T) (h : heap) :
  h !! A = Some mA → h !! B = Some mB →
  wf mA → wf mB → cols mA = rows mB →
  ¬ valid_dims (rows mA) (cols mB) →
  multiply A B h = Undefined.
Proof. apply multiply_overflow_crashes. Qed.

End MultiplyFurther.

(** * The further properties on [Matrix<double>] *)

(** C1 fails on the code: the operands [Matrix<double>(2^32, 0)] and
    [Matrix<double>(0, 2^32)], as the sized constructor builds them, are
    compatible, and [multiply] returns no matrix for them: the buffer of
    the result is empty and the first assignment falls outside it. *)
Lemma multiply_constructed_operands_crash :
  A_tall = Matrix_ctor (2 ^ 32) 0 ∧ B_wide = Matrix_ctor 0 (2 ^ 32) ∧
  cols A_tall = rows B_wide ∧
  multiply 0 1 store_tall_wide = Undefined.
Proof.
  do 3 (split; [reflexivity |]).
  apply (multiply_overflow_crashes 0 1 A_tall B_wide store_tall_wide);
    [reflexivity | reflexivity | by vm_compute | by vm_compute
    | reflexivity |].
  vm_compute. discriminate.
Qed.

Lemma matrix_ext_witness : A22 = mkMatrix 2 2 [1; 2; 3; 4]%float.
Proof.
  apply (matrix_ext A22 (mkMatrix 2 2 [1; 2; 3; 4]%float));
    [apply wf_A22 | apply wf_A22 | reflexivity | reflexivity |].
  intros r c _ _. reflexivity.
Defined.

Lemma set_set_same_witness :
  set (mkMatrix 2 2 [9; 2; 3; 4]%float) 0 0 7%float = set A22 0 0 7%float.
Proof. apply (set_set_same A22 0 0 9%float 7%float). reflexivity. Defined.

Lemma set_set_comm_witness :
  ∃ m1 m2 m12,
    set A22 0 0 9%float = Ok m1 ∧ set A22 1 1 7%float = Ok m2 ∧
    set m1 1 1 7%float = Ok m12 ∧ set m2 0 0 9%float = Ok m12.
Proof.
  apply (set_set_comm A22 0 0 9%float 1 1 7%float);
    [apply wf_A22 | by vm_compute | by vm_compute | discriminate].
Defined.

Lemma set_get_id_witness : set A22 1 0 3%float = Ok A22.
Proof. apply (set_get_id A22 1 0 3%float). reflexivity. Defined.

Lemma Matrix_ctor_overflow_witness :
  ∃ r c, r < 2 ^ 32 ∧ c < 2 ^ 32 ∧
         get (Matrix_ctor (2 ^ 32) (2 ^ 32) : Matrix float) r c = Undefined ∧
         ∀ v, set (Matrix_ctor (2 ^ 32) (2 ^ 32) : Matrix float) r c v
              = Undefined.
Proof.
  apply (@Matrix_ctor_overflow float Numeric_double (2 ^ 32) (2 ^ 32)).
  vm_compute. discriminate.
Defined.

Lemma Matrix_ctor_list_returns_iff_witness :
  Matrix_ctor_list [[1; 2; 3]; [4; 5; 6]]%float = Ok A23.
Proof.
  apply (Matrix_ctor_list_returns_iff [[1; 2; 3]; [4; 5; 6]]%float A23).
  exists [1; 2; 3]%float, [[4; 5; 6]%float].
  split; [reflexivity |]. split; [by repeat constructor |].
  split; reflexivity.
Defined.

Lemma Matrix_ctor_list_throws_witness :
  InconsistentShape = InconsistentShape ∧
  ∃ first rest row,
    [[1; 2; 3]; [4; 5]]%float = first :: rest ∧
    row ∈ [[1; 2; 3]; [4; 5]]%float ∧ length row ≠ length first.
Proof.
  apply (Matrix_ctor_list_throws [[1; 2; 3]; [4; 5]]%float InconsistentShape).
  reflexivity.
Defined.

Lemma wf_A23 : wf A23.
Proof. by vm_compute. Qed.

Lemma multiply_empty_inner_witness :
  ∃ C, store_20_03 !! C = None ∧
       multiply 0 1 store_20_03
       = Ok (C, <[C := Matrix_ctor (rows A20) (cols B03)]> store_20_03).
Proof.
  apply (multiply_empty_inner 0 1 A20 B03 store_20_03);
    [reflexivity | reflexivity | by vm_compute | by vm_compute
    | reflexivity | reflexivity | reflexivity].
Defined.

Lemma multiply_value_only_witness :
  ∃ C1 C2 mC,
    multiply 0 0 store_22_22 = Ok (C1, <[C1 := mC]> store_22_22) ∧
    multiply 0 1 store_22_copy = Ok (C2, <[C2 := mC]> store_22_copy).
Proof.
  apply (multiply_value_only 0 0 0 1 A22 A22 store_22_22 store_22_copy);
    [reflexivity | reflexivity | reflexivity | reflexivity
    | apply wf_A22 | apply wf_A22 | reflexivity | reflexivity].
Defined.

Lemma multiply_chain_witness :
  ∃ AB E mAB mE,
    bind (multiply 0 1) (λ AB, multiply AB 2) store_chain
    = Ok (E, <[E := mE]> (<[AB := mAB]> store_chain)) ∧
    store_chain !! AB = None ∧ store_chain !! E = None ∧ AB ≠ E ∧
    rows mE = rows A22 ∧ cols mE = cols A23 ∧
    ∀ i j, i < rows A22 → j < cols A23 →
      get mE i j = Ok (of_double (dot mAB A23 i j)) ∧
      ∀ k, k < cols B22 → get mAB i k = Ok (of_double (dot A22 B22 i k)).
Proof.
  apply (multiply_chain 0 1 2 A22 B22 A23 store_chain);
    [reflexivity | reflexivity | reflexivity
    | apply wf_A22 | apply wf_B22 | apply wf_A23
    | reflexivity | reflexivity | reflexivity | reflexivity].
Defined.

Lemma multiply_result_overflow_witness :
  multiply 0 1 store_tall_wide = Undefined.
Proof.
  apply (multiply_result_overflow 0 1 A_tall B_wide store_tall_wide);
    [reflexivity | reflexivity | by vm_compute | by vm_compute
    | reflexivity |].
  vm_compute. discriminate.
Defined.

(** The chain on the scenario operands, computed. *)
Example multiply_chain_2x2_2x2_2x3 :
  bind (multiply 0 1) (λ AB, multiply AB 2) store_chain
  = Ok (4%nat,
        <[4%nat := mkMatrix 2 3 [107; 148; 189; 243; 336; 429]%float]>
          (<[3%nat := AB22]> store_chain)).
Proof. vm_compute. reflexivity. Qed.
